(** * Discrete local-minimum search of [estimator/util.py]

    A shallow embedding of [local_minimum], [binary_search],
    [binary_search_robust] and [batch_estimate], and of [CodedBKW.ntest]
    and [CodedBKW.t1] of [estimator/lwe_bkw.py], followed by the properties
    established about them.

    Conventions of the embedding.
    - Integers are [Z].  [ceil(a / b)], [floor(a / b)] and [round(a / 2)]
      are taken on the exact quotient.  Sage integers give that at any size.
      Python integers are divided as floats: the quotient is exact, and the
      embedding is the code, while the operands stay within the ranges
      [float_exact] and [float_safe] below (far beyond any parameter the
      estimator searches over); beyond them Python rounds the quotient to 53
      bits before [ceil], [floor] or [round] sees it.  Every statement that
      names a rounded quotient or the coarse grid carries these ranges as
      hypotheses; the others hold whatever candidate is proposed.
    - The sentinel [False] ("no usable result") is the constructor
      [Infeasible]; every other result is [Feasible a].
    - [(None, None)] for [_best] is [None]; a stored pair is [Some (x, y)].
    - [raise StopIteration] in [__next__] is [None]; every other exception is
      a value of [error].
    - [Logging.log] calls are advisory and are not part of the state. *)

From Stdlib Require Import ZArith Lia List Bool.
From stdpp Require Import gmap strings list.

Open Scope Z_scope.

(** ** Results, exceptions and rounding *)

Inductive result (A : Type) : Type :=
| Feasible (a : A)
| Infeasible.
Arguments Feasible {A} a.
Arguments Infeasible {A}.

Inductive error : Type :=
| ValueError
| TypeError
| ZeroDivisionError.

(** Outcome of a loop run with a bound on the number of iterations. *)
Inductive outcome (T : Type) : Type :=
| Done (t : T)
| Raised (e : error)
| OutOfFuel.
Arguments Done {T} t.
Arguments Raised {T} e.
Arguments OutOfFuel {T}.

(** [floor(a / b)] and [ceil(a / b)] for [b <> 0], on the exact quotient. *)
Definition floor_div (a b : Z) : Z := a / b.
Definition ceil_div (a b : Z) : Z := - ((- a) / b).

(** [float_exact z]: the integer [z] and its half [z / 2] are both values
    of a Python float, so that [ceil(z / 2)], [floor(z / 2)] and
    [round(z / 2)] see the exact quotient. *)
Definition float_exact (z : Z) : Prop := Z.abs z <= 2 ^ 53.

(** [float_safe z]: a range for [start], [stop] and [step] within which the
    float quotients [start / step] and [stop / step] have the ceiling and the
    floor of the exact quotients: a quotient that is not an integer is at
    least [1 / step] away from the integers next to it, which is more than
    half the gap between neighbouring floats there. *)
Definition float_safe (z : Z) : Prop := Z.abs z <= 2 ^ 52.

(** ** [class local_minimum] *)

Module LocalMinimum.
Section local_minimum.
Context {A : Type}.

Record state : Type := mkState {
  _suppress_bounds_warning : bool;
  _test_step_size : Z;
  _start : Z;
  _stop : Z;
  _initial_bounds : Z * Z;
  _smallerf : A -> result A -> bool;
  _direction : Z;
  _last_x : option Z;
  _next_x : option Z;
  _best : option (Z * result A);
  _all_x : gset Z
}.

(** [__init__]: the bounds check, then the initial fields. *)
Definition init (start stop : Z) (smallerf : A -> result A -> bool)
    (suppress_bounds_warning : bool) (test_step_size : Z) : error + state :=
  if stop <? start then inl ValueError
  else inr {| _suppress_bounds_warning := suppress_bounds_warning;
              _test_step_size := test_step_size;
              _start := start;
              _stop := stop - 1;
              _initial_bounds := (start, stop - 1);
              _smallerf := smallerf;
              _direction := -1;
              _last_x := None;
              _next_x := Some (stop - 1);
              _best := None;
              _all_x := ∅ |}.

(** The three reasons for [abort = True] in [__next__]. *)
Definition abort (s : state) : bool :=
  match _next_x s with
  | None => true
  | Some x =>
      if decide (x ∈ _all_x s) then true
      else (x <? fst (_initial_bounds s)) || (snd (_initial_bounds s) <? x)
  end.

(** [__next__]: [Some (x, s')] hands out candidate [x]; [None] is
    [StopIteration]. *)
Definition next (s : state) : option (Z * state) :=
  match _next_x s with
  | Some x =>
      if abort s then None
      else Some (x, {| _suppress_bounds_warning := _suppress_bounds_warning s;
                       _test_step_size := _test_step_size s;
                       _start := _start s;
                       _stop := _stop s;
                       _initial_bounds := _initial_bounds s;
                       _smallerf := _smallerf s;
                       _direction := _direction s;
                       _last_x := Some x;
                       _next_x := None;
                       _best := _best s;
                       _all_x := _all_x s |})
  | None => None
  end.

(** Whether the advisory about an optimum on a bound is logged when
    [__next__] stops. *)
Definition bounds_warning (s : state) : bool :=
  match _best s with
  | Some (bx, _) =>
      ((bx =? fst (_initial_bounds s)) || (bx =? snd (_initial_bounds s)))
      && negb (_suppress_bounds_warning s)
  | None => false
  end.

(** Properties [x] and [y]. *)
Definition x (s : state) : option Z := fst <$> _best s.
Definition y (s : state) : option (result A) := snd <$> _best s.

(** [res is not False and self._smallerf(res, self._best[1])], evaluated
    after the "We got nothing yet" assignment. *)
Definition improves (s : state) (res : result A) (best : Z * result A) : bool :=
  match res with
  | Feasible a => _smallerf s a (snd best)
  | Infeasible => false
  end.

(** "We are repeating ourselves, time to stop". *)
Definition no_repeat (last : Z) (nxt : option Z) : option Z :=
  match nxt with
  | Some n => if n =? last then None else Some n
  | None => None
  end.

(** [update].  Before the first [__next__] the field [_last_x] is [None]
    and [_direction] is [-1] (only [update] changes it); both branches for
    that direction do integer arithmetic on [_last_x], which raises
    [TypeError].  The exception ends the run: the half-updated object it
    leaves behind is not modelled. *)
Definition update (res : result A) (s : state) : error + state :=
  match _last_x s with
  | None => inl TypeError
  | Some last =>
      let all_x := {[ last ]} ∪ _all_x s in
      let best0 := match _best s with Some b => b | None => (last, res) end in
      let step := _test_step_size s in
      let d := _direction s in
      let '(best, d', start', stop', nxt) :=
        if improves s res best0 then
          if negb (Z.abs d =? 1) then
            ((last, res), -1, _start s, _stop s, Some (last - step))
          else if d =? -1 then
            ((last, res), -2, _start s, last, Some (ceil_div (_start s + last) 2))
          else
            ((last, res), 2, last, _stop s, Some (floor_div (last + _stop s) 2))
        else
          if d =? -1 then
            (best0, 1, _start s, _stop s, Some (last + 2 * step))
          else if d =? 1 then
            (best0, d, _start s, _stop s, None)
          else if d =? -2 then
            (best0, d, last, _stop s, Some (ceil_div (last + _stop s) 2))
          else if d =? 2 then
            (best0, d, _start s, last, Some (floor_div (_start s + last) 2))
          else
            (best0, d, _start s, _stop s, _next_x s) in
      inr {| _suppress_bounds_warning := _suppress_bounds_warning s;
             _test_step_size := step;
             _start := start';
             _stop := stop';
             _initial_bounds := _initial_bounds s;
             _smallerf := _smallerf s;
             _direction := d';
             _last_x := Some last;
             _next_x := no_repeat last nxt;
             _best := Some best;
             _all_x := all_x |}
  end.

(** The loop [for x in it: it.update(oracle(x))].  The [i]-th call of the
    cost function on candidate [x] returns [oracle i x]; a cost function
    proper ignores [i].  The candidates handed out are collected in
    order. *)
Fixpoint drive (fuel : nat) (oracle : nat -> Z -> result A) (i : nat)
    (s : state) : outcome (list Z * state) :=
  match fuel with
  | O => OutOfFuel
  | S fuel' =>
      match next s with
      | None => Done ([], s)
      | Some (c, s1) =>
          match update (oracle i c) s1 with
          | inl e => Raised e
          | inr s2 =>
              match drive fuel' oracle (S i) s2 with
              | Done (cs, s') => Done (c :: cs, s')
              | Raised e => Raised e
              | OutOfFuel => OutOfFuel
              end
          end
      end
  end.

(** Iterations that always suffice: one per integer of the original
    interval, and one more to see [StopIteration]. *)
Definition enough (s : state) : nat :=
  S (Z.to_nat (snd (_initial_bounds s) - fst (_initial_bounds s) + 1)).

End local_minimum.
Arguments state : clear implicits.
End LocalMinimum.

(** ** Comparators and costs *)

(** The default comparator [lambda x, best: x <= best] on integer costs.
    Python compares an integer with [False] as with [0]. *)
Definition default_smallerf (x : Z) (best : result Z) : bool :=
  match best with
  | Feasible b => x <=? b
  | Infeasible => x <=? 0
  end.

(** Modelled from the spec: class [Cost] of [estimator/cost.py] is not among
    the sources.  A cost is ordered by its primary scalar field [rop]; the
    other fields play no role in the comparisons made here. *)
Record Cost : Type := mkCost { rop : Z }.

Definition Cost_le (x : Cost) (best : result Cost) : bool :=
  match best with
  | Feasible b => rop x <=? rop b
  | Infeasible => rop x <=? 0
  end.

Definition Cost_lt (x y : result Cost) : bool :=
  match x, y with
  | Feasible a, Feasible b => rop a <? rop b
  | Feasible a, Infeasible => rop a <? 0
  | Infeasible, Feasible b => 0 <? rop b
  | Infeasible, Infeasible => false
  end.

(** ** [binary_search] *)

Section binary_search.
Context {A : Type}.
Import LocalMinimum.

(** The cost function [f] has the searched parameter as its argument, the
    other keyword arguments being fixed.  The value returned is [it.y],
    together with the candidates on which [f] was called, in order. *)
Definition binary_search (f : Z -> result A) (start stop : Z)
    (smallerf : A -> result A -> bool) : outcome (list Z * option (result A)) :=
  match init start (stop + 1) smallerf false 1 with
  | inl e => Raised e
  | inr it =>
      match drive (enough it) (fun _ => f) 0 it with
      | Done (cs, it') => Done (cs, y it')
      | Raised e => Raised e
      | OutOfFuel => OutOfFuel
      end
  end.

(** ** [binary_search_robust] *)

(** [round(z / 2)] on the exact quotient: Python rounds a half to the even
    neighbour. *)
Definition round_half (z : Z) : Z :=
  let q := z / 2 in
  if Z.even z then q else if Z.even q then q else q + 1.

(** [min(cst)] for a non-empty list: the first smallest element, found
    with the natural [<] of the results. *)
Fixpoint min_from (lt : result A -> result A -> bool) (best : result A)
    (cst : list (result A)) : result A :=
  match cst with
  | [] => best
  | r :: cst' => min_from lt (if lt r best then r else best) cst'
  end.

Definition py_min (lt : result A -> result A -> bool) (cst : list (result A))
    : error + result A :=
  match cst with
  | [] => inl ValueError
  | r :: cst' => inr (min_from lt r cst')
  end.

(** Phase 1, or the single evaluation that replaces it: the points
    evaluated, then [p] and [y]. *)
Definition coarse (f : Z -> result A) (start stop step : Z) (it : state A)
    : outcome (list Z * Z * option (result A)) :=
  if step <? stop - start then
    match drive (enough it) (fun _ c => f (step * c)) 0 it with
    | Done (cs, it') =>
        match x it' with
        | Some bx => Done (map (Z.mul step) cs, step * bx, y it')
        | None => Raised TypeError
        end
    | Raised e => Raised e
    | OutOfFuel => OutOfFuel
    end
  else
    let p := round_half (stop - start) in
    Done ([p], p, Some (f p)).

Definition binary_search_robust (lt : result A -> result A -> bool)
    (f : Z -> result A) (start stop step : Z)
    (smallerf : A -> result A -> bool) : outcome (list Z * option (result A)) :=
  if step =? 0 then Raised ZeroDivisionError
  else
    match init (ceil_div start step) (floor_div stop step) smallerf false 1 with
    | inl e => Raised e
    | inr it =>
        match coarse f start stop step it with
        | Done (evaluated, p, y) =>
            let lower := Z.max start (p - step) in
            let upper := Z.min stop (p + step) in
            if upper <=? lower then Done (evaluated, y)
            else
              let window := seqZ lower (upper - lower) in
              match py_min lt (map f window) with
              | inr m => Done (evaluated ++ window, Some m)
              | inl e => Raised e
              end
        | Raised e => Raised e
        | OutOfFuel => OutOfFuel
        end
    end.

End binary_search.

(** ** [batch_estimate] *)

(** A Python [dict]: keys in insertion order; assigning to a key that is
    present replaces its value in place. *)
Section dict.
Context {K V : Type} `{EqDecision K}.

Fixpoint dict_set (d : list (K * V)) (k : K) (v : V) : list (K * V) :=
  match d with
  | [] => [(k, v)]
  | (k', v') :: d' =>
      if decide (k = k') then (k', v) :: d' else (k', v') :: dict_set d' k v
  end.

Fixpoint dict_get (d : list (K * V)) (k : K) : option V :=
  match d with
  | [] => None
  | (k', v') :: d' => if decide (k = k') then Some v' else dict_get d' k
  end.

(** [dict(pairs)]. *)
Definition dict_of_list (pairs : list (K * V)) : list (K * V) :=
  fold_left (fun d kv => dict_set d kv.1 kv.2) pairs [].
End dict.

Section batch_estimate.
(** [X]: parameter instances; [Y]: results. *)
Context {X Y : Type} `{EqDecision X}.

(** A cost function with its keyword arguments fixed ([partial(f, **kwds)])
    and the identity [f_name(f)] under which its results are filed. *)
Record algorithm : Type := mkAlgorithm {
  f_name : string;
  call : X -> Y
}.

Definition task : Type := (X -> Y) * X * Z * string.

(** [_batch_estimatef], without its log lines. *)
Definition _batch_estimatef (t : task) : Y :=
  let '(f, x, _, _) := t in f x.

(** The key and value filed for a task. *)
Definition filed (t : task) : string * X * Y :=
  let '(f, x, _, f_repr) := t in (f_repr, x, f x).

Definition tasks_of (params : list X) (algorithms : list algorithm)
    (log_level : Z) : list task :=
  flat_map (fun x => map (fun f => (call f, x, log_level, f_name f)) algorithms)
           params.

(** [Pool.starmap]: the results come back in the order of the tasks,
    whichever worker computed them; a deterministic function yields in a
    worker the value it yields in the caller. *)
Definition starmap {T R : Type} (g : T -> R) (tasks : list T) : list R :=
  map g tasks.

(** [[((f_repr, x), res[i]) for i, (f, x, _, f_repr) in enumerate(tasks)]],
    counting from [i]; [None] is the [IndexError] of [res[i]]. *)
Fixpoint keyed (res : list Y) (i : nat) (tasks : list task)
    : option (list (string * X * Y)) :=
  match tasks with
  | [] => Some []
  | (_, x, _, f_repr) :: tasks' =>
      match res !! i, keyed res (S i) tasks' with
      | Some r, Some rest => Some ((f_repr, x, r) :: rest)
      | _, _ => None
      end
  end.

(** The closing loop: [ret[x] = ret.get(x, dict()); ret[x][f] = res[f, x]]
    for the keys of [res] in order. *)
Definition assemble (res : list (string * X * Y)) : list (X * list (string * Y)) :=
  fold_left
    (fun ret '(f, x, r) =>
       let inner := default [] (dict_get ret x) in
       dict_set ret x (dict_set inner f r))
    res [].

Inductive batch_error : Type :=
| PoolValueError
| IndexError.

Definition batch_estimate (params : list X) (algorithms : list algorithm)
    (jobs : Z) (log_level : Z) : batch_error + list (X * list (string * Y)) :=
  let tasks := tasks_of params algorithms log_level in
  if jobs =? 1 then
    let res :=
      fold_left
        (fun res t => let '(_, x, _, f_repr) := t in
                      dict_set res (f_repr, x) (_batch_estimatef t))
        tasks [] in
    inr (assemble res)
  else if jobs <? 1 then inl PoolValueError
  else
    match keyed (starmap _batch_estimatef tasks) 0 tasks with
    | Some pairs => inr (assemble (dict_of_list pairs))
    | None => inl IndexError
    end.
End batch_estimate.
Arguments algorithm : clear implicits.

(** ** Vocabulary of the properties *)

Section vocabulary.
Context {A : Type}.
Import LocalMinimum.

(** The integers of the closed interval [lo .. hi]. *)
Definition interval (lo hi : Z) : gset Z := list_to_set (seqZ lo (hi - lo + 1)).

(** The integers of the original interval that were not evaluated yet. *)
Definition pending (s : state A) : gset Z :=
  interval (fst (_initial_bounds s)) (snd (_initial_bounds s)) ∖ _all_x s.

(** [rounds k oracle i s]: the state after [k] further turns of the loop,
    if the iterator hands out that many candidates. *)
Fixpoint rounds (k : nat) (oracle : nat -> Z -> result A) (i : nat)
    (s : state A) : option (state A) :=
  match k with
  | O => Some s
  | S k' =>
      match next s with
      | Some (c, s1) =>
          match update (oracle i c) s1 with
          | inr s2 => rounds k' oracle (S i) s2
          | inl _ => None
          end
      | None => None
      end
  end.
End vocabulary.

(** [f] decreases strictly down to some [m] of [[start, stop)] and increases
    strictly from there on. *)
Definition strictly_unimodal (f : Z -> Z) (start stop : Z) : Prop :=
  exists m, start <= m < stop /\
    (forall x, start <= x < m -> f (x + 1) < f x) /\
    (forall x, m <= x -> x + 1 < stop -> f x < f (x + 1)).

(** The search of an integer cost function [f] over [[start, stop)] with the
    default comparator and step. *)
Definition search (f : Z -> Z) (start stop : Z)
    : outcome (list Z * LocalMinimum.state Z) :=
  match LocalMinimum.init start stop default_smallerf false 1 with
  | inl e => Raised e
  | inr it =>
      LocalMinimum.drive (LocalMinimum.enough it) (fun _ c => Feasible (f c)) 0 it
  end.

(** The cost function of the regression test of [update]:
    [Cost(rop=1) if x >= 19 else Cost(rop=2)]. *)
Definition plateau (x : Z) : result Cost :=
  if x >=? 19 then Feasible (mkCost 1) else Feasible (mkCost 2).

(** A cost that falls by one per step down to [7] and rises by three per
    step from there. *)
Definition vee (x : Z) : Z := if x <? 7 then 7 - x else 3 * (x - 7).

(** The context of a search over [[0, 10)] after candidate [9] was handed
    out. *)
Definition probing_9 : LocalMinimum.state Z :=
  {| LocalMinimum._suppress_bounds_warning := false; LocalMinimum._test_step_size := 1;
     LocalMinimum._start := 0; LocalMinimum._stop := 9; LocalMinimum._initial_bounds := (0, 9);
     LocalMinimum._smallerf := default_smallerf; LocalMinimum._direction := -1;
     LocalMinimum._last_x := Some 9; LocalMinimum._next_x := None; LocalMinimum._best := None; LocalMinimum._all_x := ∅ |}.

(** Reading a two-level table: [table[x][name]], if both keys are there. *)
Definition table_get {X Y : Type} `{EqDecision X}
    (table : list (X * list (string * Y))) (x : X) (name : string) : option Y :=
  match dict_get table x with
  | Some inner => dict_get inner name
  | None => None
  end.

(** The value of the last pair of a list of pairs that has key [k]. *)
Fixpoint assoc_last {K V : Type} `{EqDecision K} (l : list (K * V)) (k : K)
    : option V :=
  match l with
  | [] => None
  | (k', v) :: l' =>
      match assoc_last l' k with
      | Some w => Some w
      | None => if decide (k = k') then Some v else None
      end
  end.

(** The last cost function of [algorithms] whose identity is [name]. *)
Fixpoint last_named {X Y : Type} (name : string) (algorithms : list (algorithm X Y))
    : option (algorithm X Y) :=
  match algorithms with
  | [] => None
  | f :: rest =>
      match last_named name rest with
      | Some g => Some g
      | None => if decide (f_name f = name) then Some f else None
      end
  end.

(** The distinct elements of a list, in the order of their first
    occurrence: the order of the keys of a [dict] filled from that list. *)
Fixpoint first_seen {K : Type} `{EqDecision K} (l : list K) : list K :=
  match l with
  | [] => []
  | k :: l' => k :: filter (fun y => y <> k) (first_seen l')
  end.

(** ** [CodedBKW.ntest] and [CodedBKW.t1] of [estimator/lwe_bkw.py] *)

Module CodedBKW.

(** The real-valued parts of the two functions are not computed here; their
    outcome, a value or the exception they raise, is given:
    - [root_search] is the outcome of the numeric part of [CodedBKW.ntest]
      (from [var("ntest")] to [int(ntest_min)]);
    - [N ntest i] is the outcome of [CodedBKW.N(i, sigma_set, b, q)] for the
      [sigma_set] that [t1] computes from [ntest], a non-zero integer. *)

(** [[g(i) for i in l]], stopping at the first exception. *)
Fixpoint collect {T : Type} (g : Z -> error + T) (l : list Z) : error + list T :=
  match l with
  | [] => inr []
  | i :: l' =>
      match g i with
      | inl e => inl e
      | inr v =>
          match collect g l' with
          | inl e => inl e
          | inr vs => inr (v :: vs)
          end
      end
  end.

(** [CodedBKW.ntest(n, ell, t1, t2, b, q)]: [0] when the plain tables cover
    all of [n], the numeric estimate otherwise. *)
Definition ntest (root_search : error + Z) (n t1 b : Z) : error + Z :=
  if n <=? t1 * b then inr 0 else root_search.

(** [CodedBKW.t1(params, ell, t2, b, ntest)], with [n] for [params.n].  The
    quotient [ell / ntest] in [sigma_set] raises [ZeroDivisionError] for
    [ntest = 0], and so does [params.n // b] for [b = 0]. *)
Definition t1 (root_search : error + Z) (N : Z -> Z -> error + Z)
    (n t2 b : Z) (ntest_arg : option Z) : error + Z :=
  match (match ntest_arg with
         | Some v => inr v
         | None => ntest root_search n 0 b
         end) with
  | inl e => inl e
  | inr nt =>
      if nt =? 0 then inl ZeroDivisionError
      else
        match collect (N nt) (seqZ 1 t2) with
        | inl e => inl e
        | inr Ni =>
            let t1 := Z.of_nat (length (filter (fun e => e <= b) Ni)) in
            if n <? b * t1 then
              if b =? 0 then inl ZeroDivisionError else inr (n / b)
            else inr t1
        end
  end.

End CodedBKW.

(** ** Facts about [__next__] and [update] *)

Section local_minimum_facts.
Context {A : Type}.
Import LocalMinimum.
Implicit Types (s it : state A) (res : result A) (c last : Z).

Lemma next_inv s c s1 :
  next s = Some (c, s1) ->
  _next_x s = Some c /\ (c ∉ _all_x s) /\
  fst (_initial_bounds s) <= c <= snd (_initial_bounds s) /\
  _last_x s1 = Some c /\ _all_x s1 = _all_x s /\
  _initial_bounds s1 = _initial_bounds s /\
  _direction s1 = _direction s /\ _best s1 = _best s /\
  _start s1 = _start s /\ _stop s1 = _stop s /\
  _test_step_size s1 = _test_step_size s /\ _smallerf s1 = _smallerf s.
Proof.
  unfold next, abort. destruct (_next_x s) as [n|]; [|discriminate].
  destruct (decide (n ∈ _all_x s)) as [|Hn]; [discriminate|].
  destruct (orb _ _) eqn:Hb; [discriminate|].
  intros [= <- <-]. cbn.
  apply orb_false_elim in Hb as [H1 H2].
  apply Z.ltb_ge in H1, H2. repeat split; auto.
Qed.

Lemma next_None_iff s : next s = None <-> abort s = true.
Proof.
  unfold next. destruct (_next_x s) eqn:E.
  - destruct (abort s); split; congruence.
  - unfold abort. rewrite E. tauto.
Qed.

Lemma update_inv res s last :
  _last_x s = Some last ->
  exists s', update res s = inr s' /\
    _all_x s' = {[ last ]} ∪ _all_x s /\
    _initial_bounds s' = _initial_bounds s /\
    _last_x s' = Some last /\
    _smallerf s' = _smallerf s /\
    _test_step_size s' = _test_step_size s.
Proof.
  intros Hl. unfold update. rewrite Hl.
  destruct (if improves s res _ then _ else _) as [[[[b d] st] sp] nx].
  eexists. split; [reflexivity|]. cbn. auto.
Qed.

Lemma update_last_None res s : _last_x s = None -> update res s = inl TypeError.
Proof. intros Hl. unfold update. now rewrite Hl. Qed.

(** One turn of the loop removes the candidate from the pending ones. *)
Lemma turn_pending s c s1 res s2 :
  next s = Some (c, s1) -> update res s1 = inr s2 ->
  c ∈ pending s /\ pending s2 = pending s ∖ {[ c ]}.
Proof.
  intros Hn Hu. apply next_inv in Hn as (_ & Hc & Hb & Hl & Ha & Hi & _).
  destruct (update_inv res s1 c Hl) as (s2' & Hu' & Ha' & Hi' & _).
  rewrite Hu in Hu'. injection Hu' as <-.
  unfold pending, interval. rewrite Hi', Hi, Ha', Ha. split.
  - apply elem_of_difference. split; [|exact Hc].
    apply elem_of_list_to_set, elem_of_seqZ. lia.
  - set_solver.
Qed.

Lemma elem_of_pending s c :
  c ∈ pending s ->
  fst (_initial_bounds s) <= c <= snd (_initial_bounds s) /\ c ∉ _all_x s.
Proof.
  unfold pending, interval. rewrite elem_of_difference, elem_of_list_to_set, elem_of_seqZ.
  intros [H1 H2]. split; [lia|exact H2].
Qed.

Lemma size_interval lo hi : size (interval lo hi) = Z.to_nat (hi - lo + 1).
Proof.
  unfold interval. rewrite size_list_to_set by apply NoDup_seqZ.
  apply length_seqZ.
Qed.

(** The loop never raises: [update] is only called on a state that has
    just handed out a candidate. *)
Lemma drive_not_Raised fuel oracle i s e : drive fuel oracle i s <> Raised e.
Proof.
  revert i s. induction fuel as [|fuel IH]; intros i s; cbn; [discriminate|].
  destruct (next s) as [[c s1]|] eqn:Hn; [|discriminate].
  apply next_inv in Hn as (_ & _ & _ & Hl & _).
  destruct (update_inv (oracle i c) s1 c Hl) as (s2 & -> & _).
  specialize (IH (S i) s2).
  destruct (drive fuel oracle (S i) s2) as [[cs s']| |]; congruence.
Qed.

(** With more iterations allowed than there are pending integers the loop
    reaches [StopIteration]; its candidates are distinct pending integers. *)
Lemma drive_Done fuel oracle i s :
  (size (pending s) < fuel)%nat ->
  exists cs s', drive fuel oracle i s = Done (cs, s') /\
    NoDup cs /\ (forall c, c ∈ cs -> c ∈ pending s) /\
    (length cs <= size (pending s))%nat /\
    _initial_bounds s' = _initial_bounds s /\ next s' = None.
Proof.
  revert i s. induction fuel as [|fuel IH]; intros i s Hlt; [lia|]. cbn.
  destruct (next s) as [[c s1]|] eqn:Hn.
  - pose proof Hn as Hn'.
    apply next_inv in Hn' as (_ & _ & _ & Hl & _ & Hi & _).
    destruct (update_inv (oracle i c) s1 c Hl) as (s2 & Hu & _ & Hi2 & _).
    rewrite Hu.
    destruct (turn_pending _ _ _ _ _ Hn Hu) as [Hc Hp].
    assert (Hsz : (size (pending s2) < size (pending s))%nat).
    { apply subset_size. rewrite Hp. set_solver. }
    destruct (IH (S i) s2) as (cs & s' & -> & Hnd & Hin & Hlen & Hb & Hstop); [lia|].
    exists (c :: cs), s'. split; [reflexivity|]. repeat split.
    + apply NoDup_cons_2; [|exact Hnd]. intros Hc'%Hin. set_solver.
    + intros c' [->|Hc']%elem_of_cons; [exact Hc|]. apply Hin in Hc'. set_solver.
    + cbn. lia.
    + congruence.
    + exact Hstop.
  - exists [], s. split; [reflexivity|]. split; [apply NoDup_nil_2|].
    split; [intros c Hc; inversion Hc|]. split; [cbn; lia|]. split; [reflexivity|exact Hn].
Qed.

Lemma drive_fuel_mono fuel fuel' oracle i s r :
  drive fuel oracle i s = Done r -> (fuel <= fuel')%nat ->
  drive fuel' oracle i s = Done r.
Proof.
  revert fuel' i s r. induction fuel as [|fuel IH]; intros fuel' i s r; [discriminate|].
  destruct fuel' as [|fuel']; [lia|]. cbn. intros H Hle.
  destruct (next s) as [[c s1]|]; [|exact H].
  destruct (update (oracle i c) s1) as [e|s2]; [exact H|].
  destruct (drive fuel oracle (S i) s2) as [[cs s']| |] eqn:E; try discriminate.
  rewrite (IH fuel' _ _ _ E) by lia. exact H.
Qed.

Lemma init_inv start stop smallerf sup step it :
  init start stop smallerf sup step = inr it ->
  start <= stop /\ _initial_bounds it = (start, stop - 1) /\ _all_x it = ∅ /\
  _next_x it = Some (stop - 1) /\ _best it = None /\ _direction it = -1.
Proof.
  unfold init. destruct (Z.ltb_spec stop start); [discriminate|].
  intros [= <-]. cbn. split; [lia|]. repeat split.
Qed.

Lemma init_ok start stop smallerf sup step :
  start <= stop -> exists it, init start stop smallerf sup step = inr it.
Proof.
  intros H. unfold init. destruct (Z.ltb_spec stop start); [lia|]. eauto.
Qed.

Lemma pending_init start stop smallerf sup step it :
  init start stop smallerf sup step = inr it ->
  size (pending it) = Z.to_nat (stop - start) /\ enough it = S (Z.to_nat (stop - start)).
Proof.
  intros (Hle & Hb & Ha & _)%init_inv. unfold pending, enough.
  rewrite Hb, Ha, difference_empty_L, size_interval. cbn. split; f_equal; lia.
Qed.

(** The whole run from a fresh context. *)
Lemma run_from_init start stop smallerf sup step oracle it :
  init start stop smallerf sup step = inr it ->
  exists cs it', drive (enough it) oracle 0 it = Done (cs, it') /\
    NoDup cs /\ (forall c, c ∈ cs -> start <= c < stop) /\
    (length cs <= Z.to_nat (stop - start))%nat /\ next it' = None.
Proof.
  intros Hi. destruct (pending_init _ _ _ _ _ _ Hi) as [Hsz Hen].
  destruct (drive_Done (enough it) oracle 0%nat it) as (cs & it' & Hd & Hnd & Hin & Hlen & _ & Hstop).
  { rewrite Hsz, Hen. lia. }
  exists cs, it'. repeat split; auto; try lia.
  - apply Hin, elem_of_pending in H as [H _].
    apply init_inv in Hi as (_ & Hb & _). rewrite Hb in H. cbn in H. lia.
  - apply Hin, elem_of_pending in H as [H _].
    apply init_inv in Hi as (_ & Hb & _). rewrite Hb in H. cbn in H. lia.
Qed.
End local_minimum_facts.

(** ** Properties of [local_minimum] *)

Section local_minimum_properties.
Context {A : Type}.
Import LocalMinimum.
Implicit Types (s it : state A) (res : result A) (c last : Z).

(** C6: in a run of [local_minimum] from a fresh context, whatever the
    bounds, the comparator, the step size and the results reported, the
    loop reaches [StopIteration] and the candidates handed out by
    [__next__] are pairwise distinct; the same holds of every run observed
    with any other bound on its length. *)
Theorem candidates_never_repeat start stop smallerf sup step
    (oracle : nat -> Z -> result A) it :
  init start stop smallerf sup step = inr it ->
  (exists cs it', drive (enough it) oracle 0 it = Done (cs, it') /\ NoDup cs) /\
  (forall fuel cs it', drive fuel oracle 0 it = Done (cs, it') -> NoDup cs).
Proof.
  intros Hi.
  destruct (run_from_init _ _ _ _ _ oracle _ Hi) as (cs & it' & Hd & Hnd & _).
  split; [eauto|].
  intros fuel cs2 it2 Hd2.
  pose proof (drive_fuel_mono _ (Nat.max fuel (enough it)) _ _ _ _ Hd2 (Nat.le_max_l _ _)) as E2.
  pose proof (drive_fuel_mono _ (Nat.max fuel (enough it)) _ _ _ _ Hd (Nat.le_max_r _ _)) as E1.
  rewrite E1 in E2. injection E2 as <- _. exact Hnd.
Qed.

(** C7: for [start <= stop] the construction succeeds and the loop reaches
    [StopIteration] after at most [stop - start] candidates, the number of
    integers of [[start, stop)]; allowing more iterations changes
    nothing. *)
Theorem search_terminates start stop smallerf sup step
    (oracle : nat -> Z -> result A) :
  start <= stop ->
  exists it cs it',
    init start stop smallerf sup step = inr it /\
    drive (enough it) oracle 0 it = Done (cs, it') /\
    next it' = None /\
    (length cs <= Z.to_nat (stop - start))%nat /\
    (forall fuel, (enough it <= fuel)%nat -> drive fuel oracle 0 it = Done (cs, it')).
Proof.
  intros Hle. destruct (init_ok start stop smallerf sup step Hle) as [it Hi].
  destruct (run_from_init _ _ _ _ _ oracle _ Hi) as (cs & it' & Hd & _ & _ & Hlen & Hstop).
  exists it, cs, it'. repeat split; auto.
  intros fuel Hf. eapply drive_fuel_mono; eauto.
Qed.

(** C8: [__init__] raises [ValueError] exactly when [stop < start], and it
    raises nothing else; with [start <= stop] it returns a context; neither
    [update] after a candidate was handed out nor the loop as a whole
    raises. *)
Theorem only_configuration_error start stop smallerf sup step :
  (init (A:=A) start stop smallerf sup step = inl ValueError <-> stop < start) /\
  (forall e, init (A:=A) start stop smallerf sup step = inl e -> e = ValueError) /\
  (start <= stop -> exists it, init (A:=A) start stop smallerf sup step = inr it) /\
  (forall s c s1 res, next s = Some (c, s1) -> exists s2, update res s1 = inr s2) /\
  (forall fuel (oracle : nat -> Z -> result A) i s e, drive fuel oracle i s <> Raised e).
Proof.
  repeat split.
  - unfold init. destruct (Z.ltb_spec stop start); [auto|discriminate].
  - unfold init. destruct (Z.ltb_spec stop start); [auto|lia].
  - unfold init. destruct (Z.ltb_spec stop start); congruence.
  - apply init_ok.
  - intros s c s1 res (_ & _ & _ & Hl & _)%next_inv.
    destruct (update_inv res s1 c Hl) as (s2 & Hu & _). eauto.
  - intros. apply drive_not_Raised.
Qed.

(** C3, as amended: an [Infeasible] result takes the branch of a result
    that does not improve, and it leaves a best-so-far pair that is already
    stored unchanged; reported as the very first result it is stored as the
    best-so-far pair. *)
Theorem infeasible_is_no_improvement s last :
  _last_x s = Some last ->
  exists s', update Infeasible s = inr s' /\
    _best s' = Some (match _best s with Some b => b | None => (last, Infeasible) end) /\
    _direction s' = (if _direction s =? -1 then 1 else _direction s) /\
    _start s' = (if _direction s =? -2 then last else _start s) /\
    _stop s' = (if _direction s =? 2 then last else _stop s) /\
    (_direction s = -1 ->
       _next_x s' = no_repeat last (Some (last + 2 * _test_step_size s))) /\
    (_direction s = 1 -> _next_x s' = None).
Proof.
  intros Hl. unfold update. rewrite Hl. cbn.
  destruct (Z.eqb_spec (_direction s) (-1)) as [->|H1].
  { eexists. split; [reflexivity|]. cbn. repeat split; auto. discriminate. }
  destruct (Z.eqb_spec (_direction s) 1) as [E|H2].
  { eexists. split; [reflexivity|]. cbn. rewrite E. cbn. repeat split; auto. lia. }
  destruct (Z.eqb_spec (_direction s) (-2)) as [E|H3].
  { eexists. split; [reflexivity|]. cbn. rewrite E. cbn. repeat split; auto; lia. }
  destruct (Z.eqb_spec (_direction s) 2) as [E|H4].
  { eexists. split; [reflexivity|]. cbn. rewrite E. cbn. repeat split; auto; lia. }
  eexists. split; [reflexivity|]. cbn. repeat split; auto; lia.
Qed.

(** C4, as amended: when the search is unit-step probing downward
    ([_direction = -1]) and the reported result improves the best-so-far,
    bisection is entered at once: the direction becomes [-2], the upper
    bound becomes the new best and, for bounds whose sum is within
    [float_exact], the next candidate is the middle of the bounds rounded
    up, or none at all (the search stops) when that middle is the candidate
    just evaluated; probing upward, the direction becomes [2], the lower
    bound becomes the new best and the middle is rounded down, with the same
    proviso. *)
Theorem unit_step_improvement_bisects s last res :
  _last_x s = Some last ->
  improves s res (match _best s with Some b => b | None => (last, res) end) = true ->
  (_direction s = -1 -> float_exact (_start s + last) ->
     exists s', update res s = inr s' /\
       _direction s' = -2 /\ _best s' = Some (last, res) /\
       _start s' = _start s /\ _stop s' = last /\
       _next_x s' = (if ceil_div (_start s + last) 2 =? last then None
                     else Some (ceil_div (_start s + last) 2))) /\
  (_direction s = 1 -> float_exact (last + _stop s) ->
     exists s', update res s = inr s' /\
       _direction s' = 2 /\ _best s' = Some (last, res) /\
       _start s' = last /\ _stop s' = _stop s /\
       _next_x s' = (if floor_div (last + _stop s) 2 =? last then None
                     else Some (floor_div (last + _stop s) 2))).
Proof.
  intros Hl Himp.
  split; intros Hd _; unfold update; rewrite Hl, Himp, Hd; cbn;
    eexists; (split; [reflexivity|]); cbn; repeat split.
Qed.
End local_minimum_properties.

Section local_minimum_examples.
Import LocalMinimum.

Lemma candidates_never_repeat_witness :
  exists it, init 0 4 default_smallerf false 1 = inr it /\
    (exists cs it', drive (enough it) (fun _ c => Feasible c) 0 it = Done (cs, it') /\ NoDup cs).
Proof.
  eexists. split; [reflexivity|].
  apply (candidates_never_repeat 0 4 default_smallerf false 1 (fun _ c => Feasible c)).
  reflexivity.
Defined.

Lemma search_terminates_witness :
  0 <= 4 /\
  exists it cs it',
    init 0 4 default_smallerf false 1 = inr it /\
    drive (enough it) (fun _ c => Feasible c) 0 it = Done (cs, it') /\
    next it' = None /\
    (length cs <= Z.to_nat (4 - 0))%nat /\
    (forall fuel, (enough it <= fuel)%nat ->
       drive fuel (fun _ c => Feasible c) 0 it = Done (cs, it')).
Proof.
  split; [lia|].
  apply (search_terminates 0 4 default_smallerf false 1 (fun _ c => Feasible c)). lia.
Defined.

Lemma only_configuration_error_witness :
  init (A:=Z) 5 3 default_smallerf false 1 = inl ValueError /\
  exists it, init (A:=Z) 3 5 default_smallerf false 1 = inr it.
Proof.
  split.
  - apply (only_configuration_error (A:=Z) 5 3 default_smallerf false 1). lia.
  - apply (only_configuration_error (A:=Z) 3 5 default_smallerf false 1). lia.
Defined.

(** C3 fails as stated: [Infeasible] reported as the very first result
    becomes the stored best-so-far pair. *)
Lemma first_infeasible_is_stored :
  exists it it2,
    init 0 10 default_smallerf false 1 = inr it /\
    next it = Some (9, probing_9) /\
    _best probing_9 = None /\
    update Infeasible probing_9 = inr it2 /\
    _best it2 = Some (9, Infeasible) /\
    y it2 = Some Infeasible.
Proof.
  eexists. eexists. split; [reflexivity|]. split; [reflexivity|].
  split; [reflexivity|]. split; [reflexivity|]. split; reflexivity.
Qed.

Lemma infeasible_is_no_improvement_witness :
  exists s', update Infeasible probing_9 = inr s' /\
    _best s' = Some (9, Infeasible) /\ _direction s' = 1.
Proof.
  destruct (infeasible_is_no_improvement probing_9 9 eq_refl)
    as (s' & Hu & Hb & Hd & _).
  exists s'. split; [exact Hu|]. split; [exact Hb|exact Hd].
Defined.

(** C4 fails as stated: over [[0, 21)] with cost [f(x) = x] the long jump
    to [10] improves, the unit step down to [9] improves as well, and the
    candidate after [9] is [5], in bisection mode, not [8]. *)
Lemma first_unit_step_improvement_bisects :
  exists it s2 s3 s4,
    init 0 21 default_smallerf false 1 = inr it /\
    rounds 2 (fun _ c => Feasible c) 0 it = Some s2 /\
    _direction s2 = -1 /\ _best s2 = Some (10, Feasible 10) /\
    next s2 = Some (10 - 1, s3) /\
    improves s3 (Feasible 9) (10, Feasible 10) = true /\
    update (Feasible 9) s3 = inr s4 /\
    _direction s4 = -2 /\ _next_x s4 = Some 5 /\
    _next_x s4 <> Some (9 - _test_step_size s3).
Proof.
  do 4 eexists. split; [reflexivity|]. split; [vm_compute; reflexivity|].
  split; [reflexivity|]. split; [reflexivity|]. split; [vm_compute; reflexivity|].
  split; [reflexivity|]. split; [vm_compute; reflexivity|].
  split; [reflexivity|]. split; [reflexivity|]. discriminate.
Qed.

Lemma unit_step_improvement_bisects_witness :
  exists s', update (Feasible 3) probing_9 = inr s' /\
    _direction s' = -2 /\ _stop s' = 9 /\ _next_x s' = Some 5.
Proof.
  destruct (unit_step_improvement_bisects probing_9 9 (Feasible 3) eq_refl eq_refl)
    as [H _].
  assert (Hx : float_exact (_start probing_9 + 9)) by (unfold float_exact; simpl; lia).
  destruct (H eq_refl Hx) as (s' & Hu & Hd & _ & _ & Hs & Hn).
  exists s'. split; [exact Hu|]. split; [exact Hd|]. split; [exact Hs|exact Hn].
Defined.
End local_minimum_examples.

(** ** Properties of [binary_search] and [binary_search_robust] *)

Section binary_search_properties.
Context {A : Type}.
Import LocalMinimum.

(** A fresh context over a non-empty interval hands out [stop - 1]. *)
Lemma first_candidate start stop smallerf sup step (it : state A) :
  init start stop smallerf sup step = inr it -> start < stop ->
  exists it1, next it = Some (stop - 1, it1).
Proof.
  unfold init. destruct (Z.ltb_spec stop start); [discriminate|].
  intros [= <-] Hlt. unfold next, abort. cbn.
  destruct (decide (stop - 1 ∈ (∅ : gset Z))) as [Hin|_]; [set_solver|].
  destruct (Z.ltb_spec (stop - 1) start); [lia|].
  destruct (Z.ltb_spec (stop - 1) (stop - 1)); [lia|]. cbn. eauto.
Qed.

End binary_search_properties.

(** C2: [binary_search(f, 10, 30, "x")] on that step function returns the
    cost with [rop = 1], after six evaluations. *)
Theorem binary_search_plateau :
  binary_search plateau 10 30 Cost_le =
  Done ([30; 20; 19; 15; 17; 18], Some (Feasible (mkCost 1))).
Proof. vm_compute. reflexivity. Qed.


(** C1 fails on the code: [vee] is strictly unimodal over [[0, 9)] with its
    minimum at [7]; the search evaluates [8, 4, 3, 5, 6] and stops with
    best-so-far [6], of cost [1], never evaluating [7], of cost [0]. *)
Theorem search_misses_minimum :
  strictly_unimodal vee 0 9 /\
  exists it',
    search vee 0 9 = Done ([8; 4; 3; 5; 6], it') /\
    LocalMinimum.x it' = Some 6 /\
    LocalMinimum.y it' = Some (Feasible 1) /\
    vee 7 < vee 6.
Proof.
  split.
  - exists 7. split; [lia|]. unfold vee. split; intros x Hx.
    + destruct (Z.ltb_spec (x + 1) 7), (Z.ltb_spec x 7); lia.
    + intros Hx'. destruct (Z.ltb_spec (x + 1) 7), (Z.ltb_spec x 7); lia.
  - eexists. split; [vm_compute; reflexivity|]. repeat split.
Qed.

(** The same search over [[0, 4)] with the increasing cost [f(x) = x] stops
    at [1]: the lower bound [0] is never evaluated. *)
Lemma search_misses_lower_bound :
  strictly_unimodal (fun x => x) 0 4 /\
  exists it',
    search (fun x => x) 0 4 = Done ([3; 2; 1], it') /\
    LocalMinimum.x it' = Some 1.
Proof.
  split.
  - exists 0. split; [lia|]. split; intros; lia.
  - eexists. split; [vm_compute; reflexivity|]. reflexivity.
Qed.

(** C5 fails on the code: with [start = 10], [stop = 12] and [step = 5] the
    span is below one step, and the single evaluation is at
    [round((12 - 10) / 2) = 1], not at the midpoint [11] of the range; the
    window [[10, 6)] around [1] is empty, so the value at [1] is returned
    without any scan. *)
Theorem robust_degenerate_probe (A : Type) (lt : result A -> result A -> bool)
    (f : Z -> result A) (smallerf : A -> result A -> bool) :
  binary_search_robust lt f 10 12 5 smallerf = Done ([1], Some (f 1)).
Proof. reflexivity. Qed.

(** In the same case the context is built before the span is looked at, and
    [ceil(11 / 5) = 3 > 2 = floor(14 / 5)] makes [__init__] raise. *)
Lemma robust_degenerate_raises (A : Type) (lt : result A -> result A -> bool)
    (f : Z -> result A) (smallerf : A -> result A -> bool) :
  binary_search_robust lt f 11 14 5 smallerf = Raised ValueError.
Proof. reflexivity. Qed.

(** ** Properties of [batch_estimate] *)

Section batch_estimate_properties.
Context {X Y : Type} `{EqDecision X}.
Implicit Types (t : task (X:=X) (Y:=Y)) (tasks : list (task (X:=X) (Y:=Y))).

Lemma lookup_starmap_middle {T R : Type} (g : T -> R) (pre : list T) (a : T) (post : list T) :
  starmap g (pre ++ a :: post) !! length pre = Some (g a).
Proof. induction pre as [|b pre IH]; [reflexivity|exact IH]. Qed.

(** Indexing the pooled results by position never fails and pairs every
    task with its own result. *)
Lemma keyed_starmap pre tasks :
  keyed (starmap _batch_estimatef (pre ++ tasks)) (length pre) tasks
  = Some (map filed tasks).
Proof.
  revert pre. induction tasks as [|t tasks IH]; intros pre; [reflexivity|].
  cbn [keyed map]. destruct t as [[[f x] lvl] f_repr].
  rewrite lookup_starmap_middle.
  specialize (IH (pre ++ [(f, x, lvl, f_repr)])).
  rewrite <- app_assoc, length_app in IH. cbn in IH.
  replace (length pre + 1)%nat with (S (length pre)) in IH by lia.
  rewrite IH. reflexivity.
Qed.

(** Filing the results one by one, as the sequential loop does, builds the
    dictionary that [dict] builds from the list of pairs. *)
Lemma sequential_is_dict_of_list tasks (acc : list (string * X * Y)) :
  fold_left (fun res t => let '(_, x, _, f_repr) := t in
                          dict_set res (f_repr, x) (_batch_estimatef t)) tasks acc
  = fold_left (fun d kv => dict_set d kv.1 kv.2) (map filed tasks) acc.
Proof.
  revert acc. induction tasks as [|[[[f x] lvl] f_repr] tasks IH]; intros acc;
    [reflexivity|].
  cbn. apply IH.
Qed.

(** C9: for cost functions that are deterministic, [batch_estimate] with
    [jobs = K > 1] returns the table that it returns with [jobs = 1], keys
    in the same order, and both calls return a table. *)
Theorem batch_estimate_jobs_irrelevant (params : list X)
    (algorithms : list (algorithm X Y)) (K log_level : Z) :
  1 < K ->
  batch_estimate params algorithms K log_level
  = batch_estimate params algorithms 1 log_level /\
  exists table, batch_estimate params algorithms 1 log_level = inr table.
Proof.
  intros HK. unfold batch_estimate.
  destruct (Z.eqb_spec K 1) as [|_]; [lia|].
  destruct (Z.ltb_spec K 1) as [|_]; [lia|].
  cbn [Z.eqb Pos.eqb].
  set (tasks := tasks_of params algorithms log_level).
  assert (Hk : keyed (starmap _batch_estimatef tasks) 0 tasks = Some (map filed tasks))
    by exact (keyed_starmap [] tasks).
  rewrite Hk.
  unfold dict_of_list. rewrite <- sequential_is_dict_of_list.
  split; [reflexivity|eauto].
Qed.
End batch_estimate_properties.

Lemma batch_estimate_jobs_irrelevant_witness :
  1 < 4 /\
  batch_estimate [1; 2]
    [mkAlgorithm "f" (fun x => x + 1); mkAlgorithm "g" (fun x => x * 2);
     mkAlgorithm "f" (fun x => x + 7)] 4 0
  = inr [(1, [("f", 8); ("g", 2)]); (2, [("f", 9); ("g", 4)])].
Proof.
  split; [lia|].
  destruct (batch_estimate_jobs_irrelevant [1; 2]
    [mkAlgorithm "f" (fun x => x + 1); mkAlgorithm "g" (fun x => x * 2);
     mkAlgorithm "f" (fun x => x + 7)] 4 0) as [-> _]; [lia|].
  reflexivity.
Defined.

(** ** Further facts about [update] and the loop *)

Section update_projections.
Context {A : Type}.
Import LocalMinimum.
Implicit Types (s it : state A) (res : result A) (c last : Z).

(** The pair [update] compares the result with: the stored one, or the
    result itself when nothing is stored yet. *)
Lemma update_best res s last s' :
  _last_x s = Some last -> update res s = inr s' ->
  _best s' =
    Some (if improves s res (match _best s with Some b => b | None => (last, res) end)
          then (last, res)
          else match _best s with Some b => b | None => (last, res) end).
Proof.
  intros Hl. unfold update. rewrite Hl.
  destruct (improves s res _).
  - destruct (negb _); [intros [= <-]; reflexivity|].
    destruct (_ =? -1); intros [= <-]; reflexivity.
  - destruct (_ =? -1); [intros [= <-]; reflexivity|].
    destruct (_ =? 1); [intros [= <-]; reflexivity|].
    destruct (_ =? -2); [intros [= <-]; reflexivity|].
    destruct (_ =? 2); intros [= <-]; reflexivity.
Qed.

(** [update] moves a current bound only onto the candidate just
    evaluated, and the direction stays one of the four the code uses. *)
Lemma update_bounds res s last s' :
  _last_x s = Some last -> update res s = inr s' ->
  (_start s' = _start s \/ _start s' = last) /\
  (_stop s' = _stop s \/ _stop s' = last) /\
  (_direction s' = _direction s \/ _direction s' = -1 \/ _direction s' = 1 \/
   _direction s' = -2 \/ _direction s' = 2).
Proof.
  intros Hl. unfold update. rewrite Hl.
  destruct (improves s res _).
  - destruct (negb _); [intros [= <-]; cbn; auto 7|].
    destruct (_ =? -1); intros [= <-]; cbn; auto 7.
  - destruct (_ =? -1); [intros [= <-]; cbn; auto 7|].
    destruct (_ =? 1); [intros [= <-]; cbn; auto 7|].
    destruct (_ =? -2); [intros [= <-]; cbn; auto 7|].
    destruct (_ =? 2); intros [= <-]; cbn; auto 7.
Qed.

(** A property kept by every turn of the loop holds when the loop stops. *)
Lemma drive_invariant (P : state A -> Prop) (oracle : nat -> Z -> result A) :
  (forall i s c s1 s2, P s -> next s = Some (c, s1) ->
     update (oracle i c) s1 = inr s2 -> P s2) ->
  forall fuel i s cs s', P s -> drive fuel oracle i s = Done (cs, s') -> P s'.
Proof.
  intros Hstep. induction fuel as [|fuel IH]; intros i s cs s' HP; [discriminate|].
  cbn. destruct (next s) as [[c s1]|] eqn:Hn; [|intros [= _ <-]; exact HP].
  destruct (update (oracle i c) s1) as [e|s2] eqn:Hu; [discriminate|].
  destruct (drive fuel oracle (S i) s2) as [[cs2 s2']| |] eqn:Hd; try discriminate.
  intros [= _ <-]. eapply IH; [|exact Hd]. eapply Hstep; eauto.
Qed.

Lemma rounds_invariant (P : state A -> Prop) (oracle : nat -> Z -> result A) :
  (forall i s c s1 s2, P s -> next s = Some (c, s1) ->
     update (oracle i c) s1 = inr s2 -> P s2) ->
  forall k i s s', P s -> rounds k oracle i s = Some s' -> P s'.
Proof.
  intros Hstep. induction k as [|k IH]; intros i s s' HP; [intros [= <-]; exact HP|].
  cbn. destruct (next s) as [[c s1]|] eqn:Hn; [|discriminate].
  destruct (update (oracle i c) s1) as [e|s2] eqn:Hu; [discriminate|].
  intros Hr. eapply IH; [|exact Hr]. eapply Hstep; eauto.
Qed.

(** The visited set at the end is the one at the beginning with the
    candidates handed out. *)
Lemma drive_visited fuel oracle i s cs s' :
  drive fuel oracle i s = Done (cs, s') ->
  _all_x s' = list_to_set cs ∪ _all_x s.
Proof.
  revert i s cs s'. induction fuel as [|fuel IH]; intros i s cs s'; [discriminate|].
  cbn. destruct (next s) as [[c s1]|] eqn:Hn.
  - apply next_inv in Hn as (_ & _ & _ & Hl & Ha & _).
    destruct (update_inv (oracle i c) s1 c Hl) as (s2 & Hu & Ha2 & _). rewrite Hu.
    destruct (drive fuel oracle (S i) s2) as [[cs2 s2']| |] eqn:Hd; try discriminate.
    intros [= <- <-]. rewrite (IH _ _ _ _ Hd), Ha2, Ha. set_solver.
  - intros [= <- <-]. set_solver.
Qed.
End update_projections.

(** ** The run as a whole *)

Section run_properties.
Context {A : Type}.
Import LocalMinimum.
Implicit Types (s it : state A) (res : result A) (c last : Z).

(** X1: at [StopIteration] the visited set [_all_x] holds exactly the
    candidates that were handed out, all of them integers of
    [[start, stop)], and the original bounds are those of the
    construction. *)
Theorem visited_are_the_candidates start stop smallerf sup step
    (oracle : nat -> Z -> result A) it :
  init start stop smallerf sup step = inr it ->
  exists cs it', drive (enough it) oracle 0 it = Done (cs, it') /\
    _all_x it' = list_to_set cs /\
    (forall c, c ∈ _all_x it' -> start <= c < stop) /\
    _initial_bounds it' = (start, stop - 1).
Proof.
  intros Hi.
  destruct (run_from_init _ _ _ _ _ oracle _ Hi) as (cs & it' & Hd & _ & Hin & _).
  exists cs, it'. split; [exact Hd|].
  pose proof (drive_visited _ _ _ _ _ _ Hd) as Hv.
  pose proof Hi as (_ & Hb & Ha & _)%init_inv. rewrite Ha in Hv.
  assert (Hv' : _all_x it' = list_to_set cs) by set_solver.
  split; [exact Hv'|]. split.
  - intros c Hc. apply Hin. rewrite Hv' in Hc. set_solver.
  - rewrite <- Hb.
    apply (drive_invariant (fun s => _initial_bounds s = _initial_bounds it) oracle)
      with (fuel := enough it) (i := 0%nat) (s := it) (cs := cs); auto.
    intros i s c s1 s2 HP (_ & _ & _ & Hl & _ & Hb1 & _)%next_inv Hu.
    destruct (update_inv (oracle i c) s1 c Hl) as (s2' & Hu' & _ & Hb2 & _).
    rewrite Hu in Hu'. injection Hu' as <-. congruence.
Qed.

(** The stored pair of a run with cost function [f]. *)
Lemma run_best_evaluated start stop smallerf sup step (f : Z -> result A) it fuel cs it' :
  init start stop smallerf sup step = inr it ->
  drive fuel (fun _ => f) 0 it = Done (cs, it') ->
  match _best it' with
  | None => cs = []
  | Some (bx, r) => bx ∈ cs /\ r = f bx
  end.
Proof.
  intros Hi Hd.
  pose proof (drive_visited _ _ _ _ _ _ Hd) as Hv.
  pose proof Hi as (_ & _ & Ha & _ & Hb & _)%init_inv. rewrite Ha in Hv.
  assert (HP : match _best it' with
               | None => _all_x it' = ∅
               | Some (bx, r) => bx ∈ _all_x it' /\ r = f bx
               end).
  { apply (drive_invariant
             (fun s => match _best s with
                       | None => _all_x s = ∅
                       | Some (bx, r) => bx ∈ _all_x s /\ r = f bx
                       end) (fun _ => f))
      with (fuel := fuel) (i := 0%nat) (s := it) (cs := cs);
      [|rewrite Hb; exact Ha|exact Hd].
    intros i s c s1 s2 HP Hn Hu.
    apply next_inv in Hn as (_ & _ & _ & Hl & Ha1 & _ & _ & Hb1 & _).
    rewrite (update_best _ _ _ _ Hl Hu).
    destruct (update_inv (f c) s1 c Hl) as (s2' & Hu' & Ha2 & _).
    rewrite Hu in Hu'. injection Hu' as <-. rewrite Ha2, Hb1, Ha1.
    destruct (_best s) as [[bx r]|].
    - destruct (improves s1 (f c) (bx, r)); [set_solver|].
      destruct HP as [HP1 HP2]. split; [set_solver|exact HP2].
    - destruct (improves s1 (f c) (c, f c)); set_solver. }
  destruct (_best it') as [[bx r]|].
  - destruct HP as [HP ->]. split; [set_solver|reflexivity].
  - destruct cs as [|c cs]; [reflexivity|]. set_solver.
Qed.

(** X2: for a cost function [f], the best-so-far pair at the end is
    [(x, f x)] for a candidate [x] that was evaluated; it is [(None, None)]
    exactly when no candidate was handed out. *)
Theorem best_is_an_evaluated_candidate start stop smallerf sup step
    (f : Z -> result A) it :
  init start stop smallerf sup step = inr it ->
  exists cs it', drive (enough it) (fun _ => f) 0 it = Done (cs, it') /\
    (cs = [] -> _best it' = None) /\
    (cs <> [] -> exists bx, bx ∈ cs /\ _best it' = Some (bx, f bx)).
Proof.
  intros Hi.
  destruct (run_from_init _ _ _ _ _ (fun _ => f) _ Hi) as (cs & it' & Hd & _).
  exists cs, it'. split; [exact Hd|].
  pose proof (run_best_evaluated _ _ _ _ _ _ _ _ _ _ Hi Hd) as HP.
  destruct (_best it') as [[bx r]|].
  - destruct HP as [Hin ->]. split.
    + intros ->. inversion Hin.
    + intros _. exists bx. split; [exact Hin|reflexivity].
  - split; [reflexivity|]. intros Hne. contradiction.
Qed.

(** The run over an empty interval. *)
Lemma empty_interval_run start (smallerf : A -> result A -> bool) sup step
    (oracle : nat -> Z -> result A) :
  exists it, init start start smallerf sup step = inr it /\
    drive (enough it) oracle 0 it = Done ([], it) /\ _best it = None.
Proof.
  unfold init. rewrite Z.ltb_irrefl. eexists. split; [reflexivity|].
  split; [|reflexivity].
  unfold enough. cbn [drive]. unfold next, abort. cbn.
  destruct (decide (start - 1 ∈ (∅ : gset Z))); [reflexivity|].
  destruct (Z.ltb_spec (start - 1) start); [reflexivity|lia].
Qed.

(** X4: over an empty interval ([stop = start]) the construction succeeds
    and the very first [__next__] stops: no candidate, [x] and [y] are
    [None], and no advisory. *)
Theorem empty_interval_yields_nothing start (smallerf : A -> result A -> bool)
    sup step (oracle : nat -> Z -> result A) :
  exists it, init start start smallerf sup step = inr it /\
    next it = None /\
    drive (enough it) oracle 0 it = Done ([], it) /\
    x it = None /\ y it = None /\ bounds_warning it = false.
Proof.
  unfold init. rewrite Z.ltb_irrefl. eexists. split; [reflexivity|].
  assert (Hn : forall s : state A,
             _next_x s = Some (start - 1) -> _all_x s = ∅ ->
             _initial_bounds s = (start, start - 1) -> next s = None).
  { intros s H1 H2 H3. unfold next, abort. rewrite H1, H2, H3. cbn.
    destruct (decide (start - 1 ∈ (∅ : gset Z))); [reflexivity|].
    destruct (Z.ltb_spec (start - 1) start); [reflexivity|lia]. }
  split; [apply Hn; reflexivity|]. split; [|repeat split].
  unfold enough. cbn [drive]. rewrite Hn by reflexivity. reflexivity.
Qed.
End run_properties.

Section run_order.
Context {A : Type}.
Import LocalMinimum.
Implicit Types (s it : state A) (res : result A) (c last : Z).


Lemma update_suppress res s s' :
  update res s = inr s' ->
  _suppress_bounds_warning s' = _suppress_bounds_warning s.
Proof.
  unfold update. destruct (_last_x s); [|discriminate].
  destruct (if improves s res _ then _ else _) as [[[[b d] st] sp] nx].
  intros [= <-]. reflexivity.
Qed.

(** The first turn of the loop over a non-empty interval. *)
Lemma first_turn start stop smallerf sup step it res :
  init start stop smallerf sup step = inr it -> start < stop ->
  exists it1 s2,
    next it = Some (stop - 1, it1) /\ update res it1 = inr s2 /\
    _best s2 = Some (stop - 1, res) /\ _all_x s2 = {[ stop - 1 ]} /\
    _initial_bounds s2 = (start, stop - 1) /\
    _suppress_bounds_warning s2 = sup /\ _smallerf s2 = smallerf /\
    _start s2 = start /\ _stop s2 = stop - 1 /\
    ((match res with Feasible a => smallerf a res | Infeasible => false end) = false ->
     _direction s2 = 1 /\
     _next_x s2 = no_repeat (stop - 1) (Some (stop - 1 + 2 * step))).
Proof.
  intros Hi Hlt. destruct (first_candidate _ _ _ _ _ _ Hi Hlt) as [it1 Hn].
  pose proof Hn as (_ & _ & _ & Hl & Ha & Hb & Hd & Hbst & Hst & Hsp & Hstep & Hsm)%next_inv.
  pose proof Hi as (_ & Hib & Hia & _ & Hibest & Hidir)%init_inv.
  assert (Hfields : _smallerf it = smallerf /\ _suppress_bounds_warning it = sup /\
                    _start it = start /\ _stop it = stop - 1 /\ _test_step_size it = step).
  { unfold init in Hi. destruct (stop <? start); [discriminate|].
    injection Hi as <-. repeat split. }
  destruct Hfields as (F1 & F2 & F3 & F4 & F5).
  assert (Hsup1 : _suppress_bounds_warning it1 = sup).
  { unfold next in Hn. destruct (_next_x it); [|discriminate].
    destruct (abort it); [discriminate|]. injection Hn as _ <-. exact F2. }
  destruct (update_inv res it1 _ Hl) as (s2 & Hu & Ha2 & Hb2 & _ & Hsm2 & _).
  exists it1, s2. split; [exact Hn|]. split; [exact Hu|].
  pose proof (update_best _ _ _ _ Hl Hu) as Hbest. rewrite Hbst, Hibest in Hbest.
  pose proof (update_suppress _ _ _ Hu) as Hsup2.
  split; [destruct (improves it1 res _) in Hbest; exact Hbest|].
  split; [rewrite Ha2, Ha, Hia; set_solver|].
  split; [congruence|]. split; [congruence|]. split; [congruence|].
  revert Hu. unfold update. rewrite Hl, Hbst, Hibest, Hd, Hidir, Hst, Hsp, Hstep, F3, F4, F5.
  unfold improves. rewrite Hsm, F1. cbn [snd].
  destruct (match res with Feasible a => smallerf a res | Infeasible => false end).
  - cbn. intros [= <-]. cbn. repeat split; discriminate.
  - cbn. intros [= <-]. cbn. repeat split.
Qed.

Lemma next_None_of_visited s :
  (forall c, fst (_initial_bounds s) <= c <= snd (_initial_bounds s) -> c ∈ _all_x s) ->
  next s = None.
Proof.
  intros H. destruct (next s) as [[c s1]|] eqn:Hn; [|reflexivity].
  apply next_inv in Hn as (_ & Hc & Hb & _). exfalso. apply Hc, H, Hb.
Qed.

(** X5: over a one-point interval the loop evaluates that point once and
    stops; the point is the best-so-far whatever its result, and the
    advisory about a bound is due unless it is suppressed. *)
Theorem one_point_interval start smallerf sup step (oracle : nat -> Z -> result A) :
  exists it it',
    init start (start + 1) smallerf sup step = inr it /\
    drive (enough it) oracle 0 it = Done ([start], it') /\
    _best it' = Some (start, oracle 0%nat start) /\
    bounds_warning it' = negb sup.
Proof.
  destruct (init_ok (A:=A) start (start + 1) smallerf sup step) as [it Hi]; [lia|].
  destruct (first_turn _ _ _ _ _ _ (oracle 0%nat start) Hi)
    as (it1 & s2 & Hn & Hu & Hb & Ha & Hib & Hsup & _); [lia|].
  replace (start + 1 - 1) with start in * by lia.
  exists it, s2. split; [exact Hi|].
  assert (Hstop : next s2 = None).
  { apply next_None_of_visited. rewrite Hib, Ha. cbn. intros c Hc.
    assert (c = start) as -> by lia. set_solver. }
  split.
  - destruct (pending_init _ _ _ _ _ _ Hi) as [_ ->].
    replace (Z.to_nat (start + 1 - start)) with 1%nat by lia.
    cbn [drive]. rewrite Hn, Hu, Hstop. reflexivity.
  - split; [exact Hb|]. unfold bounds_warning. rewrite Hb, Hib, Hsup. cbn.
    rewrite Z.eqb_refl. reflexivity.
Qed.

(** X6: if the first result, at [stop - 1], does not improve on itself (it
    is [Infeasible], or the comparator is strict) and the step size is not
    negative, the loop stops after that single evaluation and the result is
    the best-so-far. *)
Theorem first_result_not_improving_stops start stop smallerf sup step
    (oracle : nat -> Z -> result A) it :
  init start stop smallerf sup step = inr it ->
  start < stop -> 0 <= step ->
  (match oracle 0%nat (stop - 1) with
   | Feasible a => smallerf a (oracle 0%nat (stop - 1))
   | Infeasible => false
   end) = false ->
  exists it', drive (enough it) oracle 0 it = Done ([stop - 1], it') /\
    y it' = Some (oracle 0%nat (stop - 1)).
Proof.
  intros Hi Hlt Hstep Hno.
  destruct (first_turn _ _ _ _ _ _ (oracle 0%nat (stop - 1)) Hi Hlt)
    as (it1 & s2 & Hn & Hu & Hb & Ha & Hib & _ & _ & _ & _ & Hdir).
  destruct (Hdir Hno) as [_ Hnx].
  exists s2.
  assert (Hstop : next s2 = None).
  { destruct (next s2) as [[c s3]|] eqn:Hn2; [|reflexivity].
    apply next_inv in Hn2 as (Hc & _ & Hbd & _). rewrite Hib in Hbd. cbn in Hbd.
    rewrite Hnx in Hc. cbn in Hc.
    destruct (Z.eqb_spec (stop - 1 + 2 * step) (stop - 1)); [discriminate|].
    injection Hc as <-. lia. }
  split.
  - destruct (pending_init _ _ _ _ _ _ Hi) as [_ ->].
    destruct (Z.to_nat (stop - start)) as [|n] eqn:E; [lia|].
    cbn [drive]. rewrite Hn, Hu, Hstop. reflexivity.
  - unfold y. rewrite Hb. reflexivity.
Qed.

(** X8: in every state the loop reaches over a non-empty interval, the
    current bounds [_start] and [_stop] lie within the original bounds and
    the direction is one of [-1], [1], [-2], [2]. *)
Theorem current_bounds_stay_inside start stop smallerf sup step
    (oracle : nat -> Z -> result A) it k s :
  init start stop smallerf sup step = inr it -> start < stop ->
  rounds k oracle 0 it = Some s ->
  start <= _start s <= stop - 1 /\ start <= _stop s <= stop - 1 /\
  (_direction s = -1 \/ _direction s = 1 \/ _direction s = -2 \/ _direction s = 2).
Proof.
  intros Hi Hlt Hr.
  assert (HP : _initial_bounds s = (start, stop - 1) /\
               start <= _start s <= stop - 1 /\ start <= _stop s <= stop - 1 /\
               (_direction s = -1 \/ _direction s = 1 \/ _direction s = -2 \/
                _direction s = 2)).
  { apply (rounds_invariant
             (fun s => _initial_bounds s = (start, stop - 1) /\
                start <= _start s <= stop - 1 /\ start <= _stop s <= stop - 1 /\
                (_direction s = -1 \/ _direction s = 1 \/ _direction s = -2 \/
                 _direction s = 2)) oracle)
      with (k := k) (i := 0%nat) (s := it); [| |exact Hr].
    - intros i s0 c s1 s2 (Hb & Hs & Hp & Hd) Hn Hu.
      apply next_inv in Hn as (_ & _ & Hc & Hl & _ & Hb1 & Hd1 & _ & Hs1 & Hp1 & _).
      rewrite Hb in Hc. cbn in Hc.
      destruct (update_inv (oracle i c) s1 c Hl) as (s2' & Hu' & _ & Hb2 & _).
      rewrite Hu in Hu'. injection Hu' as <-.
      destruct (update_bounds _ _ _ _ Hl Hu) as (B1 & B2 & B3).
      split; [congruence|].
      split; [destruct B1 as [->| ->]; lia|].
      split; [destruct B2 as [->| ->]; lia|].
      destruct B3 as [->|B3]; [rewrite Hd1; exact Hd|exact B3].
    - unfold init in Hi. destruct (stop <? start); [discriminate|].
      injection Hi as <-. cbn. split; [reflexivity|]. split; [lia|]. split; [lia|]. auto. }
  tauto.
Qed.
End run_order.

Section run_to_upper_bound.
Import LocalMinimum.

Lemma next_suppress {A : Type} (s : state A) c s1 :
  next s = Some (c, s1) ->
  _suppress_bounds_warning s1 = _suppress_bounds_warning s.
Proof.
  unfold next. destruct (_next_x s); [|discriminate].
  destruct (abort s); [discriminate|]. intros [= _ <-]. reflexivity.
Qed.

(** X7: when the cost at [stop - 1] is strictly below the cost at every
    other point of the interval, as for a strictly decreasing cost, the
    search ends with [stop - 1] as best-so-far and the advisory about a
    solution on a bound is due. *)
Theorem least_at_upper_bound_is_found (f : Z -> Z) start stop :
  start < stop ->
  (forall c, start <= c < stop - 1 -> f (stop - 1) < f c) ->
  exists cs it', search f start stop = Done (cs, it') /\
    x it' = Some (stop - 1) /\ y it' = Some (Feasible (f (stop - 1))) /\
    bounds_warning it' = true.
Proof.
  intros Hlt Hleast. unfold search.
  destruct (init_ok (A:=Z) start stop default_smallerf false 1) as [it Hi]; [lia|].
  rewrite Hi.
  destruct (run_from_init _ _ _ _ _ (fun _ c => Feasible (f c)) _ Hi)
    as (cs & it' & Hd & _).
  exists cs, it'. split; [exact Hd|].
  destruct (first_turn _ _ _ _ _ _ (Feasible (f (stop - 1))) Hi Hlt)
    as (it1 & s2 & Hn & Hu & Hb & Ha & Hib & Hsup & Hsm & _).
  assert (HP : _best it' = Some (stop - 1, Feasible (f (stop - 1))) /\
               stop - 1 ∈ _all_x it' /\ _smallerf it' = default_smallerf /\
               _initial_bounds it' = (start, stop - 1) /\
               _suppress_bounds_warning it' = false).
  { unfold enough in Hd. cbn [drive] in Hd. rewrite Hn, Hu in Hd.
    destruct (drive _ _ 1%nat s2) as [[cs2 s']| |] eqn:Hd2; try discriminate.
    injection Hd as _ <-.
    eapply (drive_invariant
             (fun s => _best s = Some (stop - 1, Feasible (f (stop - 1))) /\
                       stop - 1 ∈ _all_x s /\ _smallerf s = default_smallerf /\
                       _initial_bounds s = (start, stop - 1) /\
                       _suppress_bounds_warning s = false)
             (fun _ c => Feasible (f c)));
      [|rewrite Ha; repeat split; auto; set_solver|exact Hd2].
    intros i s c s1 s3 (P1 & P2 & P3 & P4 & P5) Hn' Hu'.
    pose proof (next_suppress _ _ _ Hn') as Hs1.
    apply next_inv in Hn' as (_ & Hc & Hbd & Hl & Ha1 & Hb1 & _ & Hbst & _ & _ & _ & Hsm1).
    rewrite P4 in Hbd. cbn in Hbd.
    assert (c <> stop - 1) by (intros ->; contradiction).
    pose proof (update_best _ _ _ _ Hl Hu') as Hbest.
    rewrite Hbst, P1 in Hbest. unfold improves in Hbest. rewrite Hsm1, P3 in Hbest.
    cbn in Hbest.
    destruct (Z.leb_spec (f c) (f (stop - 1))) as [Hle|_].
    { specialize (Hleast c). lia. }
    pose proof (update_suppress _ _ _ Hu') as Hs3.
    destruct (update_inv (Feasible (f c)) s1 c Hl) as (s3' & Hu3 & Ha3 & Hb3 & _ & Hsm3 & _).
    rewrite Hu' in Hu3. injection Hu3 as <-.
    split; [exact Hbest|]. split; [rewrite Ha3, Ha1; set_solver|].
    split; [congruence|]. split; congruence. }
  destruct HP as (P1 & _ & _ & P4 & P5).
  unfold x, y, bounds_warning. rewrite P1, P4, P5. cbn.
  rewrite Z.eqb_refl, orb_true_r. repeat split.
Qed.
End run_to_upper_bound.

Section binary_search_outcomes.
Context {A : Type}.
Import LocalMinimum.

(** X9: [binary_search(f, start, stop, ...)] raises [ValueError] when
    [stop + 1 < start]; returns [None] without calling [f] when
    [start = stop + 1]; and for [start <= stop] returns [f x] for a candidate
    [x] it evaluated, after at most [stop - start + 1] calls of [f], all at
    distinct points of [[start, stop]]. *)
Theorem binary_search_outcome (f : Z -> result A) start stop smallerf :
  (stop + 1 < start -> binary_search f start stop smallerf = Raised ValueError) /\
  (start = stop + 1 -> binary_search f start stop smallerf = Done ([], None)) /\
  (start <= stop ->
     exists cs bx, binary_search f start stop smallerf = Done (cs, Some (f bx)) /\
       bx ∈ cs /\ NoDup cs /\ (forall c, c ∈ cs -> start <= c <= stop) /\
       (length cs <= Z.to_nat (stop - start + 1))%nat).
Proof.
  unfold binary_search. split; [|split].
  - intros H. unfold init. destruct (Z.ltb_spec (stop + 1) start); [reflexivity|lia].
  - intros ->.
    destruct (empty_interval_run (stop + 1) smallerf false 1 (fun _ => f))
      as (it & -> & Hd & Hb). rewrite Hd. unfold y. rewrite Hb. reflexivity.
  - intros Hle.
    destruct (init_ok (A:=A) start (stop + 1) smallerf false 1) as [it Hi]; [lia|].
    rewrite Hi.
    destruct (run_from_init _ _ _ _ _ (fun _ => f) _ Hi)
      as (cs & it' & Hd & Hnd & Hin & Hlen & _).
    rewrite Hd.
    pose proof (run_best_evaluated _ _ _ _ _ _ _ _ _ _ Hi Hd) as HP.
    destruct (first_candidate _ _ _ _ _ _ Hi) as [it1 Hn]; [lia|].
    assert (Hne : cs <> []).
    { intros ->. unfold enough in Hd. cbn [drive] in Hd. rewrite Hn in Hd.
      destruct (update (f (stop + 1 - 1)) it1) as [e|s2]; [discriminate|].
      destruct (drive _ _ 1%nat s2) as [[cs2 s']| |]; discriminate. }
    unfold y. destruct (_best it') as [[bx r]|]; [|contradiction].
    destruct HP as [Hbx ->]. exists cs, bx. split; [reflexivity|].
    split; [exact Hbx|]. split; [exact Hnd|]. split; [|lia].
    intros c Hc. apply Hin in Hc. lia.
Qed.
End binary_search_outcomes.

(** ** Outcomes of [binary_search_robust] *)

Section robust_outcomes.
Context {A : Type}.
Import LocalMinimum.

Lemma init_error start stop (smallerf : A -> result A -> bool) sup step e :
  init start stop smallerf sup step = inl e <-> e = ValueError /\ stop < start.
Proof.
  unfold init. destruct (Z.ltb_spec stop start); split.
  - intros [= <-]. auto.
  - intros [-> _]. reflexivity.
  - discriminate.
  - intros [_ H']. lia.
Qed.

(** Over a non-empty interval the candidates start with [stop - 1]. *)
Lemma run_starts_at_top start stop smallerf sup step (oracle : nat -> Z -> result A)
    it cs it' :
  init start stop smallerf sup step = inr it -> start < stop ->
  drive (enough it) oracle 0 it = Done (cs, it') ->
  exists rest, cs = (stop - 1) :: rest.
Proof.
  intros Hi Hlt Hd. destruct (first_candidate _ _ _ _ _ _ Hi Hlt) as [it1 Hn].
  unfold enough in Hd. cbn [drive] in Hd. rewrite Hn in Hd.
  destruct (update (oracle 0%nat (stop - 1)) it1) as [e|s2]; [discriminate|].
  destruct (drive _ _ 1%nat s2) as [[cs2 s']| |]; try discriminate.
  injection Hd as <- _. eauto.
Qed.

(** C10: for [start <= stop], [binary_search f start stop] builds its
    context as [local_minimum(start, stop + 1)], whose original bounds are
    [start] and [stop], runs the loop on it with [f], and returns the [y] of
    that run together with its candidates: the first candidate on which [f]
    is called is [stop], every candidate lies in [[start, stop]], and the
    value returned is [f] at one of them. *)
Theorem binary_search_includes_stop (f : Z -> result A) start stop smallerf :
  start <= stop ->
  exists it rest it' bx,
    init start (stop + 1) smallerf false 1 = inr it /\
    _initial_bounds it = (start, stop) /\
    drive (enough it) (fun _ => f) 0 it = Done (stop :: rest, it') /\
    binary_search f start stop smallerf = Done (stop :: rest, y it') /\
    bx ∈ stop :: rest /\ y it' = Some (f bx) /\
    (forall c, c ∈ stop :: rest -> start <= c <= stop).
Proof.
  intros Hle.
  destruct (init_ok (A:=A) start (stop + 1) smallerf false 1) as [it Hi]; [lia|].
  destruct (run_from_init _ _ _ _ _ (fun _ => f) _ Hi) as (cs & it' & Hd & _ & Hin & _).
  destruct (run_starts_at_top _ _ _ _ _ _ _ _ _ Hi ltac:(lia) Hd) as [rest ->].
  replace (stop + 1 - 1) with stop in * by lia.
  pose proof (run_best_evaluated _ _ _ _ _ _ _ _ _ _ Hi Hd) as HP.
  assert (Hy : exists bx, bx ∈ stop :: rest /\ y it' = Some (f bx)).
  { unfold y. destruct (_best it') as [[bx r]|]; [|discriminate].
    destruct HP as [Hbx ->]. exists bx. split; [exact Hbx|reflexivity]. }
  destruct Hy as (bx & Hbx & Hy).
  exists it, rest, it', bx. split; [exact Hi|]. split.
  { apply init_inv in Hi as (_ & -> & _). f_equal. lia. }
  split; [exact Hd|]. split.
  { unfold binary_search. rewrite Hi, Hd. reflexivity. }
  split; [exact Hbx|]. split; [exact Hy|].
  intros c Hc. apply Hin in Hc. lia.
Qed.

(** [min] of the costs over a non-empty window is defined. *)
Lemma window_min_defined (lt : result A -> result A -> bool) (f : Z -> result A)
    lower upper :
  lower < upper ->
  exists m, py_min lt (map f (seqZ lower (upper - lower))) = inr m.
Proof.
  intros H. rewrite seqZ_cons by lia. cbn. eauto.
Qed.

(** What follows the coarse phase never raises. *)
Lemma window_phase_done (lt : result A -> result A -> bool) (f : Z -> result A)
    start stop step (evaluated : list Z) (p : Z) (y0 : option (result A)) :
  exists out,
    (if Z.min stop (p + step) <=? Z.max start (p - step) then Done (evaluated, y0)
     else
       match py_min lt (map f (seqZ (Z.max start (p - step))
                                 (Z.min stop (p + step) - Z.max start (p - step)))) with
       | inr m => Done (evaluated ++ seqZ (Z.max start (p - step))
                          (Z.min stop (p + step) - Z.max start (p - step)), Some m)
       | inl e => Raised e
       end) = Done out.
Proof.
  destruct (Z.leb_spec (Z.min stop (p + step)) (Z.max start (p - step)));
    [eauto|].
  destruct (window_min_defined lt f _ _ H) as [m ->]. eauto.
Qed.

(** X10: for [start], [stop] and [step] within [float_safe],
    [binary_search_robust] raises [ZeroDivisionError] exactly for
    [step = 0], [ValueError] exactly when [floor(stop / step)] is below
    [ceil(start / step)], and [TypeError] exactly when these two are equal
    while [stop - start > step], the coarse range then being empty and
    [it.x] being [None]; in every other case it returns. *)
Theorem binary_search_robust_errors (lt : result A -> result A -> bool)
    (f : Z -> result A) start stop step smallerf :
  float_safe start -> float_safe stop -> float_safe step ->
  binary_search_robust lt f start stop step smallerf <> OutOfFuel /\
  forall e, binary_search_robust lt f start stop step smallerf = Raised e <->
    (e = ZeroDivisionError /\ step = 0) \/
    (e = ValueError /\ step <> 0 /\ floor_div stop step < ceil_div start step) \/
    (e = TypeError /\ step <> 0 /\ floor_div stop step = ceil_div start step /\
     step < stop - start).
Proof.
  intros _ _ _. unfold binary_search_robust.
  destruct (Z.eqb_spec step 0) as [->|Hstep].
  { split; [discriminate|]. intros e. split.
    - intros [= <-]. auto.
    - intros [[-> _]|[(_ & H & _)|(_ & H & _)]]; congruence. }
  destruct (init (ceil_div start step) (floor_div stop step) smallerf false 1)
    as [e0|it] eqn:Hi.
  { apply init_error in Hi as [-> Hlt]. split; [discriminate|]. intros e. split.
    - intros [= <-]. auto.
    - intros [[_ H]|[(-> & _)|(_ & _ & H & _)]]; [contradiction|reflexivity|lia]. }
  pose proof Hi as (Hle & _)%init_inv.
  unfold coarse. destruct (Z.ltb_spec step (stop - start)) as [Hspan|Hspan].
  - destruct (run_from_init _ _ _ _ _ (fun _ c => f (step * c)) _ Hi)
      as (cs & it' & Hd & _ & _ & Hlen & _).
    rewrite Hd.
    pose proof (run_best_evaluated _ _ _ _ _ (fun c => f (step * c)) _ _ _ _ Hi Hd) as HP.
    unfold x, y.
    destruct (Z.eq_dec (floor_div stop step) (ceil_div start step)) as [Heq|Hne].
    + assert (cs = []) as -> by (destruct cs; [reflexivity|cbn in Hlen; lia]).
      destruct (_best it') as [[bx r]|]; [destruct HP as [HP _]; inversion HP|].
      cbn. split; [discriminate|]. intros e. split.
      * intros [= <-]. auto 6.
      * intros [[_ H]|[(_ & _ & H)|(-> & _)]]; [contradiction|lia|reflexivity].
    + destruct (run_starts_at_top _ _ _ _ _ _ _ _ _ Hi ltac:(lia) Hd) as [rest ->].
      destruct (_best it') as [[bx r]|]; [|discriminate].
      cbn [fmap option_fmap option_map fst snd]. cbn zeta.
      destruct (window_phase_done lt f start stop step
                  (map (Z.mul step) (floor_div stop step - 1 :: rest)) (step * bx) (Some r))
        as [out ->].
      split; [discriminate|]. intros e. split; [discriminate|].
      intros [[_ H]|[(_ & _ & H)|(_ & _ & H & _)]]; [contradiction|lia|contradiction].
  - cbn zeta.
    destruct (window_phase_done lt f start stop step
                [round_half (stop - start)] (round_half (stop - start))
                (Some (f (round_half (stop - start))))) as [out ->].
    split; [discriminate|]. intros e. split; [discriminate|].
    intros [[_ H]|[(_ & _ & H)|(_ & _ & _ & H)]]; [contradiction|lia|lia].
Qed.

(** X11: for [start], [stop] and [step] within [float_safe], when the span
    exceeds a positive [step], every point at which [binary_search_robust]
    calls the cost function lies in [[start, stop)]. *)
Theorem robust_evaluates_inside_range (lt : result A -> result A -> bool)
    (f : Z -> result A) start stop step smallerf evaluated r :
  float_safe start -> float_safe stop -> float_safe step ->
  0 < step -> step < stop - start ->
  binary_search_robust lt f start stop step smallerf = Done (evaluated, r) ->
  forall p, p ∈ evaluated -> start <= p < stop.
Proof.
  intros _ _ _ Hpos Hspan. unfold binary_search_robust.
  destruct (Z.eqb_spec step 0); [lia|].
  destruct (init _ _ _ _ _) as [e0|it] eqn:Hi; [discriminate|].
  unfold coarse. destruct (Z.ltb_spec step (stop - start)); [|lia].
  destruct (run_from_init _ _ _ _ _ (fun _ c => f (step * c)) _ Hi)
    as (cs & it' & Hd & _ & Hin & _).
  rewrite Hd. destruct (x it') as [bx|]; [|discriminate].
  assert (Hcoarse : forall p, p ∈ map (Z.mul step) cs -> start <= p < stop).
  { intros p (c & <- & Hc%list_elem_of_In%Hin)%list_elem_of_In%in_map_iff.
    unfold ceil_div, floor_div in Hc.
    pose proof (Z.mul_div_le (- start) step Hpos).
    pose proof (Z.mul_div_le stop step Hpos). nia. }
  destruct (Z.leb_spec (Z.min stop (step * bx + step)) (Z.max start (step * bx - step))).
  - intros [= <- _]. exact Hcoarse.
  - destruct (py_min lt _) as [e|m]; [discriminate|].
    intros [= <- _] p [Hp|Hp]%elem_of_app; [auto|].
    apply elem_of_seqZ in Hp. lia.
Qed.
End robust_outcomes.

Lemma binary_search_includes_stop_witness :
  10 <= 30 /\
  exists it rest it' bx,
    LocalMinimum.init 10 (30 + 1) Cost_le false 1 = inr it /\
    LocalMinimum._initial_bounds it = (10, 30) /\
    LocalMinimum.drive (LocalMinimum.enough it) (fun _ => plateau) 0 it
      = Done (30 :: rest, it') /\
    binary_search plateau 10 30 Cost_le = Done (30 :: rest, LocalMinimum.y it') /\
    bx ∈ 30 :: rest /\ LocalMinimum.y it' = Some (plateau bx) /\
    (forall c, c ∈ 30 :: rest -> 10 <= c <= 30).
Proof.
  split; [lia|]. apply (binary_search_includes_stop plateau 10 30 Cost_le). lia.
Defined.

Section robust_minimum.
Import LocalMinimum.

(** [min] over costs: the first point of least [rop]. *)
Lemma min_from_Cost (f : Z -> Cost) (l : list Z) (b : Z) :
  exists q, q ∈ b :: l /\
    min_from Cost_lt (Feasible (f b)) (map (fun p => Feasible (f p)) l) = Feasible (f q) /\
    forall q', q' ∈ b :: l -> rop (f q) <= rop (f q').
Proof.
  revert b. induction l as [|a l IH]; intros b.
  - exists b. split; [set_solver|]. split; [reflexivity|].
    intros q' Hq. assert (q' = b) as -> by set_solver. lia.
  - cbn [map min_from Cost_lt]. destruct (Z.ltb_spec (rop (f a)) (rop (f b))).
    + destruct (IH a) as (q & Hq & -> & Hmin). exists q.
      split; [set_solver|]. split; [reflexivity|].
      intros q' [->|Hq']%elem_of_cons; [|auto].
      specialize (Hmin a ltac:(set_solver)). lia.
    + destruct (IH b) as (q & Hq & -> & Hmin). exists q.
      split; [set_solver|]. split; [reflexivity|].
      intros q' [->|[->|Hq']%elem_of_cons]%elem_of_cons.
      * apply Hmin. set_solver.
      * specialize (Hmin b ltac:(set_solver)). lia.
      * apply Hmin. set_solver.
Qed.

(** X12: for [start], [stop] and [step] within [float_safe], when the span
    exceeds a positive [step] and the costs are ordered by [rop], the points
    evaluated are those of the coarse search over
    [local_minimum(ceil(start / step), floor(stop / step))], scaled by
    [step], followed by the window of radius [step] around [p = step * it.x],
    the best of the coarse search, clipped to [[start, stop)]; the value
    returned is the cost at a point [q] of that window, and no point of the
    window, [p] included, has a smaller [rop]. *)
Theorem robust_returns_window_minimum (f : Z -> Cost) start stop step smallerf
    evaluated r :
  float_safe start -> float_safe stop -> float_safe step ->
  0 < step -> step < stop - start ->
  binary_search_robust Cost_lt (fun p => Feasible (f p)) start stop step smallerf
    = Done (evaluated, r) ->
  exists it cs it' bx q,
    init (ceil_div start step) (floor_div stop step) smallerf false 1 = inr it /\
    drive (enough it) (fun _ c => Feasible (f (step * c))) 0 it = Done (cs, it') /\
    x it' = Some bx /\
    evaluated
    = map (Z.mul step) cs
      ++ seqZ (Z.max start (step * bx - step))
           (Z.min stop (step * bx + step) - Z.max start (step * bx - step)) /\
    r = Some (Feasible (f q)) /\
    Z.max start (step * bx - step) <= q < Z.min stop (step * bx + step) /\
    rop (f q) <= rop (f (step * bx)) /\
    forall q', Z.max start (step * bx - step) <= q' < Z.min stop (step * bx + step) ->
      rop (f q) <= rop (f q').
Proof.
  intros _ _ _ Hpos Hspan. unfold binary_search_robust.
  destruct (Z.eqb_spec step 0); [lia|].
  destruct (init _ _ _ _ _) as [e0|it] eqn:Hi; [discriminate|].
  unfold coarse. destruct (Z.ltb_spec step (stop - start)); [|lia].
  destruct (run_from_init _ _ _ _ _ (fun _ c => Feasible (f (step * c))) _ Hi)
    as (cs & it' & Hd & _ & Hin & _).
  rewrite Hd.
  pose proof (run_best_evaluated _ _ _ _ _ (fun c => Feasible (f (step * c)))
                _ _ _ _ Hi Hd) as HP.
  unfold x, y. destruct (_best it') as [[bx r0]|] eqn:Hbest; [|discriminate].
  destruct HP as [Hbx ->]. cbn [fmap option_fmap option_map fst snd].
  assert (Hp : start <= step * bx < stop).
  { apply Hin in Hbx. unfold ceil_div, floor_div in Hbx.
    pose proof (Z.mul_div_le (- start) step Hpos).
    pose proof (Z.mul_div_le stop step Hpos). nia. }
  set (lower := Z.max start (step * bx - step)).
  set (upper := Z.min stop (step * bx + step)).
  destruct (Z.leb_spec upper lower); [lia|].
  assert (Hseq : seqZ lower (upper - lower)
                 = lower :: seqZ (Z.succ lower) (Z.pred (upper - lower)))
    by (apply seqZ_cons; lia).
  rewrite Hseq. cbn [map py_min].
  destruct (min_from_Cost f (seqZ (Z.succ lower) (Z.pred (upper - lower))) lower)
    as (q & Hq & Hmin & Hleast).
  rewrite Hmin. intros [= <- <-].
  assert (Hwin : forall q', q' ∈ lower :: seqZ (Z.succ lower) (Z.pred (upper - lower))
                   <-> lower <= q' < upper).
  { intros q'. rewrite elem_of_cons, elem_of_seqZ. lia. }
  exists it, cs, it', bx, q. split; [reflexivity|]. split; [exact Hd|].
  split; [unfold x; rewrite Hbest; reflexivity|].
  split; [f_equal; symmetry; exact Hseq|]. split; [reflexivity|].
  split; [apply Hwin, Hq|]. split.
  - apply Hleast, Hwin. lia.
  - intros q' Hq'. apply Hleast, Hwin, Hq'.
Qed.
End robust_minimum.

(** ** Dictionaries and the table of [batch_estimate] *)

Section dict_keys.
Context {K V : Type} `{EqDecision K}.

Lemma dict_set_keys_eq (d : list (K * V)) k v :
  map fst (dict_set d k v)
  = if decide (k ∈ map fst d) then map fst d else map fst d ++ [k].
Proof.
  induction d as [|[k0 v0] d IH]; cbn.
  - destruct (decide (k ∈ [])) as [Hin|_]; [inversion Hin|reflexivity].
  - destruct (decide (k = k0)) as [->|Hne]; cbn.
    + destruct (decide (k0 ∈ k0 :: map fst d)); [reflexivity|set_solver].
    + rewrite IH. destruct (decide (k ∈ map fst d)), (decide (k ∈ k0 :: map fst d));
        try reflexivity; set_solver.
Qed.

Lemma dict_set_keys_NoDup (d : list (K * V)) k v :
  NoDup (map fst d) -> NoDup (map fst (dict_set d k v)).
Proof.
  intros Hnd. rewrite dict_set_keys_eq.
  destruct (decide (k ∈ map fst d)); [exact Hnd|].
  apply NoDup_app. split; [exact Hnd|]. split; [|apply NoDup_singleton].
  intros k1 Hk1 Hk2. assert (k1 = k) as -> by set_solver. contradiction.
Qed.

Lemma dict_get_set_eq (d : list (K * V)) k v k' :
  dict_get (dict_set d k v) k' = if decide (k' = k) then Some v else dict_get d k'.
Proof.
  induction d as [|[k0 v0] d IH]; cbn.
  - destruct (decide (k' = k)); reflexivity.
  - destruct (decide (k = k0)) as [->|Hne]; cbn.
    + destruct (decide (k' = k0)); reflexivity.
    + destruct (decide (k' = k0)) as [->|Hne'].
      * destruct (decide (k0 = k)); [congruence|reflexivity].
      * exact IH.
Qed.
End dict_keys.

Section dict_properties.
Context {K V : Type} `{EqDecision K}.
Implicit Types (d : list (K * V)) (k : K) (v : V).

Lemma dict_get_None d k : dict_get d k = None <-> k ∉ map fst d.
Proof.
  induction d as [|[k0 v0] d IH]; cbn.
  - split; [intros _ Hin; inversion Hin|reflexivity].
  - destruct (decide (k = k0)) as [->|Hne].
    + split; [discriminate|]. intros Hn. exfalso. apply Hn. set_solver.
    + rewrite IH. set_solver.
Qed.

Lemma dict_get_fold (l : list (K * V)) d k :
  dict_get (fold_left (fun d kv => dict_set d kv.1 kv.2) l d) k
  = match assoc_last l k with Some v => Some v | None => dict_get d k end.
Proof.
  revert d. induction l as [|[k0 v0] l IH]; intros d; [reflexivity|].
  cbn [fold_left assoc_last]. rewrite IH. destruct (assoc_last l k); [reflexivity|].
  cbn. rewrite dict_get_set_eq. destruct (decide (k = k0)); reflexivity.
Qed.

Lemma fold_keys_NoDup (l : list (K * V)) d :
  NoDup (map fst d) ->
  NoDup (map fst (fold_left (fun d kv => dict_set d kv.1 kv.2) l d)).
Proof.
  revert d. induction l as [|[k0 v0] l IH]; intros d Hnd; [exact Hnd|].
  cbn [fold_left]. apply IH, dict_set_keys_NoDup, Hnd.
Qed.

Lemma assoc_last_unique d k :
  NoDup (map fst d) -> assoc_last d k = dict_get d k.
Proof.
  induction d as [|[k0 v0] d IH]; [reflexivity|]. cbn.
  intros [Hk0 Hnd]%NoDup_cons. rewrite (IH Hnd).
  destruct (decide (k = k0)) as [->|Hne].
  - apply dict_get_None in Hk0. rewrite Hk0. reflexivity.
  - destruct (dict_get d k); reflexivity.
Qed.
End dict_properties.

Section batch_table.
Context {X Y : Type} `{EqDecision X}.
Implicit Types (x : X) (name : string) (algorithms : list (algorithm X Y)).

Lemma assoc_last_app {K V : Type} `{EqDecision K} (l1 l2 : list (K * V)) (k : K) :
  assoc_last (l1 ++ l2) k
  = match assoc_last l2 k with Some v => Some v | None => assoc_last l1 k end.
Proof.
  induction l1 as [|[k0 v0] l1 IH]; cbn.
  - destruct (assoc_last l2 k); reflexivity.
  - rewrite IH. destruct (assoc_last l2 k); reflexivity.
Qed.

(** One assignment [ret[x0][f] = r] of the closing loop. *)
Lemma table_get_step (ret : list (X * list (string * Y))) f x0 (r : Y) x name :
  table_get (dict_set ret x0 (dict_set (default [] (dict_get ret x0)) f r)) x name
  = if decide ((name, x) = (f, x0)) then Some r else table_get ret x name.
Proof.
  unfold table_get. rewrite dict_get_set_eq.
  destruct (decide (x = x0)) as [->|Hx].
  - rewrite dict_get_set_eq. destruct (decide (name = f)) as [->|Hn].
    + destruct (decide ((f, x0) = (f, x0))); [reflexivity|congruence].
    + destruct (decide ((name, x0) = (f, x0))); [congruence|].
      destruct (dict_get ret x0); reflexivity.
  - destruct (decide ((name, x) = (f, x0))); [congruence|reflexivity].
Qed.

Lemma table_get_fold (res : list (string * X * Y)) (ret : list (X * list (string * Y)))
    x name :
  table_get
    (fold_left
       (fun ret '(f, x, r) =>
          let inner := default [] (dict_get ret x) in
          dict_set ret x (dict_set inner f r)) res ret) x name
  = match assoc_last res (name, x) with
    | Some v => Some v
    | None => table_get ret x name
    end.
Proof.
  revert ret. induction res as [|[[f0 x0] r0] res IH]; intros ret; [reflexivity|].
  cbn [fold_left assoc_last]. rewrite IH.
  destruct (assoc_last res (name, x)); [reflexivity|].
  cbn zeta. rewrite table_get_step.
  destruct (decide ((name, x) = (f0, x0))); reflexivity.
Qed.

Lemma filed_tasks (params : list X) algorithms log_level :
  map filed (tasks_of params algorithms log_level)
  = flat_map (fun x => map (fun f => (f_name f, x, call f x)) algorithms) params.
Proof.
  unfold tasks_of. induction params as [|x params IH]; [reflexivity|].
  change (map filed (map (fun f => (call f, x, log_level, f_name f)) algorithms
                     ++ flat_map (fun x => map (fun f => (call f, x, log_level, f_name f))
                                           algorithms) params)
          = map (fun f => (f_name f, x, call f x)) algorithms
            ++ flat_map (fun x => map (fun f => (f_name f, x, call f x)) algorithms) params).
  rewrite List.map_app. f_equal; [|exact IH].
  rewrite List.map_map. reflexivity.
Qed.

Lemma assoc_last_block algorithms x0 name x :
  assoc_last (map (fun f => (f_name f, x0, call f x0)) algorithms) (name, x)
  = if decide (x = x0) then (fun f => call f x) <$> last_named name algorithms else None.
Proof.
  induction algorithms as [|f algorithms IH]; cbn.
  - destruct (decide (x = x0)); reflexivity.
  - rewrite IH. destruct (decide (x = x0)) as [->|Hx].
    + destruct (last_named name algorithms); [reflexivity|]. cbn.
      destruct (decide ((name, x0) = (f_name f, x0))) as [E|E],
               (decide (f_name f = name)) as [E'|E']; try reflexivity; congruence.
    + destruct (decide ((name, x) = (f_name f, x0))); [congruence|reflexivity].
Qed.

Lemma assoc_last_tasks (params : list X) algorithms name x :
  assoc_last
    (flat_map (fun x => map (fun f => (f_name f, x, call f x)) algorithms) params)
    (name, x)
  = if decide (x ∈ params) then (fun f => call f x) <$> last_named name algorithms
    else None.
Proof.
  induction params as [|x0 params IH]; cbn [flat_map].
  - destruct (decide (x ∈ [])) as [Hin|_]; [inversion Hin|reflexivity].
  - rewrite assoc_last_app, IH, assoc_last_block.
    destruct (decide (x ∈ params)) as [Hin|Hin].
    + destruct (decide (x ∈ x0 :: params)); [|set_solver].
      destruct (last_named name algorithms); [reflexivity|].
      destruct (decide (x = x0)); reflexivity.
    + destruct (decide (x = x0)) as [->|Hx].
      * destruct (decide (x0 ∈ x0 :: params)); [reflexivity|set_solver].
      * destruct (decide (x ∈ x0 :: params)); [set_solver|reflexivity].
Qed.

(** With at least one worker the call returns the table assembled from the
    pairs filed for the tasks. *)
Lemma batch_estimate_table (params : list X) algorithms (jobs log_level : Z) :
  1 <= jobs ->
  batch_estimate params algorithms jobs log_level
  = inr (assemble (dict_of_list (map filed (tasks_of params algorithms log_level)))).
Proof.
  intros Hj. unfold batch_estimate, dict_of_list.
  destruct (Z.eqb_spec jobs 1).
  - cbn zeta. do 2 f_equal. apply sequential_is_dict_of_list.
  - destruct (Z.ltb_spec jobs 1); [lia|]. cbn zeta.
    set (tasks := tasks_of params algorithms log_level).
    assert (Hk : keyed (starmap _batch_estimatef tasks) 0 tasks = Some (map filed tasks))
      by exact (keyed_starmap [] tasks).
    rewrite Hk. reflexivity.
Qed.

(** X13: with [jobs >= 1], [batch_estimate] returns a table in which
    [table[x][name]] is defined exactly for a parameter [x] of [params] and
    an identity [name] of [algorithm], and is then [f(x)] for the last cost
    function [f] with that identity: of two cost functions with one identity
    only the later one is reported. *)
Theorem batch_table_content (params : list X) algorithms (jobs log_level : Z) :
  1 <= jobs ->
  exists table, batch_estimate params algorithms jobs log_level = inr table /\
    forall x name,
      table_get table x name
      = if decide (x ∈ params)
        then (fun f => call f x) <$> last_named name algorithms
        else None.
Proof.
  intros Hj. rewrite batch_estimate_table by exact Hj.
  eexists. split; [reflexivity|]. intros x name.
  unfold assemble. rewrite table_get_fold.
  rewrite assoc_last_unique by (apply fold_keys_NoDup, NoDup_nil_2).
  unfold dict_of_list. rewrite dict_get_fold, filed_tasks, assoc_last_tasks.
  destruct (decide (x ∈ params)); [|reflexivity].
  destruct (last_named name algorithms); reflexivity.
Qed.
End batch_table.

(** ** Plain steps of coded BKW *)

(** X14: [CodedBKW.t1] called without [ntest] for a dimension [n <= 0]
    raises [ZeroDivisionError]: [CodedBKW.ntest] returns [0] and [t1] divides
    by it.  With a non-zero [ntest], given or estimated, for which the code
    lengths [Ni] are computed, and with [b >= 1] and [n >= 0], it returns the
    smaller of the number of code lengths [<= b] and [n // b], so that the
    plain tables never cover more than [n] coordinates. *)
Theorem t1_covers_at_most_n (root_search : error + Z) (N : Z -> Z -> error + Z)
    (n t2 b : Z) (ntest_arg : option Z) :
  (ntest_arg = None -> n <= 0 ->
   CodedBKW.t1 root_search N n t2 b ntest_arg = inl ZeroDivisionError) /\
  (forall nt Ni,
     ntest_arg = Some nt \/ (ntest_arg = None /\ 0 < n /\ root_search = inr nt) ->
     nt <> 0 ->
     CodedBKW.collect (N nt) (seqZ 1 t2) = inr Ni ->
     0 < b -> 0 <= n ->
     CodedBKW.t1 root_search N n t2 b ntest_arg
     = inr (Z.min (Z.of_nat (length (filter (fun e => e <= b) Ni))) (n / b)) /\
     b * Z.min (Z.of_nat (length (filter (fun e => e <= b) Ni))) (n / b) <= n).
Proof.
  split.
  - intros -> Hn. unfold CodedBKW.t1, CodedBKW.ntest.
    destruct (Z.leb_spec n (0 * b)); [reflexivity|lia].
  - intros nt Ni Hnt Hnz HNi Hb Hn.
    assert (Heff : match ntest_arg with
                    | Some v => inr v
                    | None => CodedBKW.ntest root_search n 0 b
                    end = inr nt).
    { destruct Hnt as [->|(-> & Hn' & Hr)]; [reflexivity|].
      unfold CodedBKW.ntest. destruct (Z.leb_spec n (0 * b)); [lia|exact Hr]. }
    unfold CodedBKW.t1. rewrite Heff.
    destruct (Z.eqb_spec nt 0); [contradiction|]. rewrite HNi. cbn zeta.
    set (count := Z.of_nat (length (filter (fun e => e <= b) Ni))).
    pose proof (Z.mul_div_le n b Hb).
    destruct (Z.ltb_spec n (b * count)) as [Hgt|Hle].
    + destruct (Z.eqb_spec b 0); [lia|].
      assert (n / b < count) by (apply Z.div_lt_upper_bound; lia).
      rewrite Z.min_r by lia. split; [reflexivity|lia].
    + assert (count <= n / b) by (apply Z.div_le_lower_bound; lia).
      rewrite Z.min_l by lia. split; [reflexivity|lia].
Qed.

Lemma t1_covers_at_most_n_witness :
  CodedBKW.t1 (inr 3) (fun _ i => inr (2 * i)) 7 5 4 None = inr 1.
Proof.
  destruct (t1_covers_at_most_n (inr 3) (fun _ i => inr (2 * i)) 7 5 4 None)
    as [_ H].
  destruct (H 3 [2; 4; 6; 8; 10]) as [-> _];
    [right; split; [reflexivity|split; [lia|reflexivity]]
    |lia|reflexivity|lia|lia|].
  reflexivity.
Defined.

(** ** The lower bound of a two-point interval *)

Section two_points.
Context {A : Type}.
Import LocalMinimum.

(** The first turn when the first result improves on itself. *)
Lemma first_turn_improving start stop smallerf sup step (it : state A) a :
  init start stop smallerf sup step = inr it -> start < stop ->
  smallerf a (Feasible a) = true ->
  exists it1 s2,
    next it = Some (stop - 1, it1) /\ update (Feasible a) it1 = inr s2 /\
    _direction s2 = -2 /\
    _next_x s2 = no_repeat (stop - 1) (Some (ceil_div (start + (stop - 1)) 2)).
Proof.
  intros Hi Hlt Himp. destruct (first_candidate _ _ _ _ _ _ Hi Hlt) as [it1 Hn].
  pose proof Hn as (_ & _ & _ & Hl & _ & _ & Hd & Hbst & Hst & _ & _ & Hsm)%next_inv.
  pose proof Hi as (_ & _ & _ & _ & Hibest & Hidir)%init_inv.
  assert (Hfields : _smallerf it = smallerf /\ _start it = start).
  { unfold init in Hi. destruct (stop <? start); [discriminate|].
    injection Hi as <-. split; reflexivity. }
  destruct Hfields as [F1 F3].
  exists it1. unfold update. rewrite Hl, Hbst, Hibest, Hd, Hidir, Hst, F3.
  unfold improves. rewrite Hsm, F1. cbn [snd]. rewrite Himp. cbn.
  eexists. split; [exact Hn|]. split; [reflexivity|]. cbn. split; reflexivity.
Qed.

(** X15: over a two-point interval [[start, start + 2)] whose bounds have a
    sum within [float_exact], when the first result is feasible and improves
    on itself (as with [x <= best]), the loop evaluates [start + 1] only: the
    middle of the bounds rounded up is [start + 1] again, and the lower bound
    [start] is never evaluated. *)
Theorem two_point_interval_skips_lower start smallerf sup step
    (oracle : nat -> Z -> result A) it a :
  float_exact (start + (start + 1)) ->
  init start (start + 2) smallerf sup step = inr it ->
  oracle 0%nat (start + 1) = Feasible a ->
  smallerf a (Feasible a) = true ->
  exists it', drive (enough it) oracle 0 it = Done ([start + 1], it') /\
    x it' = Some (start + 1) /\ start ∉ _all_x it'.
Proof.
  intros _ Hi Hres Himp.
  destruct (first_turn_improving _ _ _ _ _ _ a Hi ltac:(lia) Himp)
    as (it1 & s2 & Hn & Hu & _ & Hnx).
  replace (start + 2 - 1) with (start + 1) in * by lia.
  assert (Hmid : ceil_div (start + (start + 1)) 2 = start + 1).
  { unfold ceil_div. replace (- (start + (start + 1))) with (-1 + (- start) * 2) by lia.
    rewrite Z.div_add by lia. change (-1 / 2) with (-1). lia. }
  rewrite Hmid in Hnx. cbn in Hnx. rewrite Z.eqb_refl in Hnx.
  assert (Hstop : next s2 = None) by (unfold next; rewrite Hnx; reflexivity).
  pose proof Hn as (_ & _ & _ & Hl & Ha1 & _ & _ & Hbst & _)%next_inv.
  pose proof Hi as (_ & _ & Hia & _ & Hibest & _)%init_inv.
  destruct (update_inv (Feasible a) it1 _ Hl) as (s2' & Hu' & Ha2 & _).
  rewrite Hu in Hu'. injection Hu' as <-.
  pose proof (update_best _ _ _ _ Hl Hu) as Hbest. rewrite Hbst, Hibest in Hbest.
  exists s2. split.
  - destruct (pending_init _ _ _ _ _ _ Hi) as [_ ->].
    replace (Z.to_nat (start + 2 - start)) with 2%nat by lia.
    cbn [drive]. rewrite Hn, Hres, Hu, Hstop. reflexivity.
  - split.
    + unfold x. rewrite Hbest. destruct (improves it1 _ _); reflexivity.
    + rewrite Ha2, Ha1, Hia. set_solver by lia.
Qed.
End two_points.

(** ** Instances *)

Section instances.
Import LocalMinimum.

Lemma visited_are_the_candidates_witness :
  exists it, init 0 4 default_smallerf false 1 = inr it /\
    exists cs it', drive (enough it) (fun _ c => Feasible c) 0 it = Done (cs, it') /\
      _all_x it' = list_to_set cs /\
      (forall c, c ∈ _all_x it' -> 0 <= c < 4) /\
      _initial_bounds it' = (0, 4 - 1).
Proof.
  eexists. split; [reflexivity|].
  apply (visited_are_the_candidates 0 4 default_smallerf false 1 (fun _ c => Feasible c)).
  reflexivity.
Defined.

Lemma best_is_an_evaluated_candidate_witness :
  exists it, init 0 4 default_smallerf false 1 = inr it /\
    exists cs it', drive (enough it) (fun _ c => Feasible c) 0 it = Done (cs, it') /\
      (cs = [] -> _best it' = None) /\
      (cs <> [] -> exists bx, bx ∈ cs /\ _best it' = Some (bx, Feasible bx)).
Proof.
  eexists. split; [reflexivity|].
  apply (best_is_an_evaluated_candidate 0 4 default_smallerf false 1 (fun c => Feasible c)).
  reflexivity.
Defined.


Lemma first_result_not_improving_stops_witness :
  exists it, init 0 10 default_smallerf false 1 = inr it /\
    exists it', drive (enough it) (fun _ _ => Infeasible) 0 it = Done ([10 - 1], it') /\
      y it' = Some Infeasible.
Proof.
  eexists. split; [reflexivity|].
  apply (first_result_not_improving_stops 0 10 default_smallerf false 1
           (fun _ _ => Infeasible)); [reflexivity|lia|lia|reflexivity].
Defined.

Lemma least_at_upper_bound_is_found_witness :
  exists cs it', search (fun c => - c) 0 5 = Done (cs, it') /\
    x it' = Some (5 - 1) /\ y it' = Some (Feasible (- (5 - 1))) /\
    bounds_warning it' = true.
Proof.
  apply (least_at_upper_bound_is_found (fun c => - c) 0 5); [lia|].
  intros c Hc. lia.
Defined.

Lemma current_bounds_stay_inside_witness :
  exists it s, init 0 21 default_smallerf false 1 = inr it /\
    rounds 2 (fun _ c => Feasible c) 0 it = Some s /\
    0 <= _start s <= 21 - 1 /\ 0 <= _stop s <= 21 - 1 /\
    (_direction s = -1 \/ _direction s = 1 \/ _direction s = -2 \/ _direction s = 2).
Proof.
  eexists. eexists. split; [reflexivity|]. split; [vm_compute; reflexivity|].
  eapply (current_bounds_stay_inside 0 21 default_smallerf false 1
            (fun _ c => Feasible c) _ 2); [reflexivity|lia|vm_compute; reflexivity].
Defined.

Lemma binary_search_outcome_witness :
  binary_search plateau 12 10 Cost_le = Raised ValueError /\
  binary_search plateau 11 10 Cost_le = Done ([], None) /\
  exists cs bx, binary_search plateau 10 30 Cost_le = Done (cs, Some (plateau bx)) /\
    bx ∈ cs.
Proof.
  destruct (binary_search_outcome plateau 12 10 Cost_le) as (H1 & _).
  destruct (binary_search_outcome plateau 11 10 Cost_le) as (_ & H2 & _).
  destruct (binary_search_outcome plateau 10 30 Cost_le) as (_ & _ & H3).
  split; [apply H1; lia|]. split; [apply H2; lia|].
  destruct H3 as (cs & bx & Hd & Hin & _); [lia|].
  exists cs, bx. split; [exact Hd|exact Hin].
Defined.

Lemma binary_search_robust_errors_witness :
  binary_search_robust Cost_lt plateau 1 5 3 Cost_le = Raised TypeError.
Proof.
  apply (binary_search_robust_errors Cost_lt plateau 1 5 3 Cost_le);
    [unfold float_safe; simpl; lia..|].
  right. right. split; [reflexivity|]. split; [lia|]. split; [reflexivity|lia].
Defined.

Lemma robust_evaluates_inside_range_witness : 0 <= 45 < 50.
Proof.
  apply (robust_evaluates_inside_range Cost_lt
           (fun p => Feasible (mkCost (Z.abs (p - 11)))) 0 50 5 Cost_le
           [45; 25; 20; 10; 5; 15; 5; 6; 7; 8; 9; 10; 11; 12; 13; 14]
           (Some (Feasible (mkCost 0))));
    [unfold float_safe; simpl; lia..|lia|lia|vm_compute; reflexivity|].
  apply list_elem_of_here.
Defined.

Lemma robust_returns_window_minimum_witness :
  exists it cs it' bx q,
    init (ceil_div 0 5) (floor_div 50 5) Cost_le false 1 = inr it /\
    drive (enough it) (fun _ c => Feasible (mkCost (Z.abs (5 * c - 11)))) 0 it
      = Done (cs, it') /\
    x it' = Some bx /\
    [45; 25; 20; 10; 5; 15; 5; 6; 7; 8; 9; 10; 11; 12; 13; 14]
    = map (Z.mul 5) cs
      ++ seqZ (Z.max 0 (5 * bx - 5)) (Z.min 50 (5 * bx + 5) - Z.max 0 (5 * bx - 5)) /\
    Some (Feasible (mkCost 0)) = Some (Feasible (mkCost (Z.abs (q - 11)))) /\
    Z.max 0 (5 * bx - 5) <= q < Z.min 50 (5 * bx + 5) /\
    rop (mkCost (Z.abs (q - 11))) <= rop (mkCost (Z.abs (5 * bx - 11))) /\
    forall q', Z.max 0 (5 * bx - 5) <= q' < Z.min 50 (5 * bx + 5) ->
      rop (mkCost (Z.abs (q - 11))) <= rop (mkCost (Z.abs (q' - 11))).
Proof.
  apply (robust_returns_window_minimum (fun p => mkCost (Z.abs (p - 11)))
           0 50 5 Cost_le
           [45; 25; 20; 10; 5; 15; 5; 6; 7; 8; 9; 10; 11; 12; 13; 14]
           (Some (Feasible (mkCost 0))));
    [unfold float_safe; simpl; lia..|lia|lia|vm_compute; reflexivity].
Defined.

Lemma batch_table_content_witness :
  1 <= 4 /\
  exists table,
    batch_estimate [1; 2]
      [mkAlgorithm "f" (fun x => x + 1); mkAlgorithm "g" (fun x => x * 2);
       mkAlgorithm "f" (fun x => x + 7)] 4 0 = inr table /\
    table_get table 2 "f" = Some 9.
Proof.
  split; [lia|].
  destruct (batch_table_content [1; 2]
              [mkAlgorithm "f" (fun x => x + 1); mkAlgorithm "g" (fun x => x * 2);
               mkAlgorithm "f" (fun x => x + 7)] 4 0) as (table & Ht & Hget); [lia|].
  exists table. split; [exact Ht|]. rewrite Hget. reflexivity.
Defined.

Lemma two_point_interval_skips_lower_witness :
  exists it, init 0 (0 + 2) default_smallerf false 1 = inr it /\
    exists it', drive (enough it) (fun _ c => Feasible c) 0 it = Done ([0 + 1], it') /\
      x it' = Some (0 + 1) /\ 0 ∉ _all_x it'.
Proof.
  eexists. split; [reflexivity|].
  apply (two_point_interval_skips_lower 0 default_smallerf false 1
           (fun _ c => Feasible c) _ 1);
    [unfold float_exact; simpl; lia|reflexivity..].
Defined.
End instances.

(** ** Order of the keys of the table *)

Section first_seen_facts.
Context {K : Type} `{EqDecision K}.
Implicit Types (l acc : list K) (k : K).

Lemma filter_comm (P Q : K -> Prop) `{!forall x, Decision (P x)}
    `{!forall x, Decision (Q x)} l :
  filter P (filter Q l) = filter Q (filter P l).
Proof. rewrite !list_filter_filter. apply list_filter_iff. tauto. Qed.

Lemma filter_implied (P Q : K -> Prop) `{!forall x, Decision (P x)}
    `{!forall x, Decision (Q x)} l :
  (forall x, P x -> Q x) -> filter P (filter Q l) = filter P l.
Proof.
  intros HPQ. rewrite list_filter_filter. apply list_filter_iff.
  intros x. split; [tauto|auto].
Qed.

Lemma filter_all (P : K -> Prop) `{!forall x, Decision (P x)} l :
  (forall x, x ∈ l -> P x) -> filter P l = l.
Proof.
  induction l as [|y l IH]; intros HP; [reflexivity|].
  rewrite filter_cons_True by (apply HP; left).
  f_equal. apply IH. intros x Hx. apply HP. right. exact Hx.
Qed.

Lemma filter_none (P : K -> Prop) `{!forall x, Decision (P x)} l :
  (forall x, x ∈ l -> ~ P x) -> filter P l = [].
Proof.
  induction l as [|y l IH]; intros HP; [reflexivity|].
  rewrite filter_cons_False by (apply HP; left).
  apply IH. intros x Hx. apply HP. right. exact Hx.
Qed.

Lemma elem_of_first_seen l k : k ∈ first_seen l <-> k ∈ l.
Proof.
  induction l as [|y l IH]; [reflexivity|]. cbn.
  rewrite !elem_of_cons, list_elem_of_filter, IH.
  destruct (decide (k = y)); tauto.
Qed.

(** Filtering before or after makes no difference. *)
Lemma first_seen_filter (P : K -> Prop) `{!forall x, Decision (P x)} l :
  filter P (first_seen l) = first_seen (filter P l).
Proof.
  induction l as [|y l IH]; [reflexivity|]. cbn [first_seen].
  rewrite !filter_cons. destruct (decide (P y)) as [Hy|Hy].
  - cbn [first_seen]. f_equal. rewrite <- IH. apply filter_comm.
  - rewrite <- IH. apply filter_implied. intros x Hx ->. contradiction.
Qed.

Lemma first_seen_app l1 l2 :
  first_seen (l1 ++ l2) = first_seen l1 ++ filter (fun y => y ∉ l1) (first_seen l2).
Proof.
  induction l1 as [|y l1 IH]; cbn [app first_seen].
  - symmetry. apply filter_all. intros x _ Hx. inversion Hx.
  - f_equal. rewrite IH, filter_app. f_equal.
    rewrite list_filter_filter. apply list_filter_iff.
    intros x. rewrite elem_of_cons. tauto.
Qed.

(** The keys after filing the elements of [l] one by one. *)
Lemma fold_note l acc :
  fold_left (fun acc k => if decide (k ∈ acc) then acc else acc ++ [k]) l acc
  = acc ++ filter (fun y => y ∉ acc) (first_seen l).
Proof.
  revert acc. induction l as [|k l IH]; intros acc.
  - cbn. symmetry. apply app_nil_r.
  - cbn [fold_left first_seen]. rewrite IH. destruct (decide (k ∈ acc)) as [Hk|Hk].
    + f_equal. rewrite filter_cons_False by tauto.
      symmetry. apply filter_implied. intros x Hx ->. contradiction.
    + rewrite <- app_assoc. f_equal. rewrite filter_cons_True by exact Hk.
      cbn [app]. f_equal. rewrite list_filter_filter. apply list_filter_iff.
      intros x. rewrite elem_of_app, list_elem_of_singleton. tauto.
Qed.

Lemma fold_note_nil l :
  fold_left (fun acc k => if decide (k ∈ acc) then acc else acc ++ [k]) l []
  = first_seen l.
Proof.
  rewrite fold_note. cbn [app]. apply filter_all. intros x _ Hx. inversion Hx.
Qed.
End first_seen_facts.

Section first_seen_map.
Context {K K' : Type} `{EqDecision K} `{EqDecision K'}.

Lemma filter_map_ne (g : K -> K') (k : K) (l : list K) :
  filter (fun y => y <> g k) (map g (filter (fun y => y <> k) l))
  = filter (fun y => y <> g k) (map g l).
Proof.
  induction l as [|y l IH]; [reflexivity|].
  rewrite filter_cons. destruct (decide (y <> k)) as [Hy|Hy].
  - cbn [map]. rewrite !filter_cons, IH. reflexivity.
  - cbn [map]. rewrite IH. rewrite (filter_cons_False _ (g y)); [reflexivity|].
    intros Hg. apply Hy. intros ->. apply Hg. reflexivity.
Qed.

(** Removing repetitions before projecting the keys changes nothing once
    repetitions are removed after it. *)
Lemma first_seen_map (g : K -> K') (l : list K) :
  first_seen (map g (first_seen l)) = first_seen (map g l).
Proof.
  induction l as [|k l IH]; [reflexivity|]. cbn [first_seen map]. f_equal.
  rewrite first_seen_filter, filter_map_ne, <- first_seen_filter, IH. reflexivity.
Qed.
End first_seen_map.

Section dict_key_order.
Context {K V : Type} `{EqDecision K}.

Lemma dict_of_list_keys (pairs : list (K * V)) :
  map fst (dict_of_list pairs) = first_seen (map fst pairs).
Proof.
  unfold dict_of_list. rewrite <- fold_note_nil.
  change (@nil K) with (map fst (@nil (K * V))) at 2.
  generalize (@nil (K * V)) as d.
  induction pairs as [|[k v] pairs IH]; intros d; [reflexivity|].
  cbn [fold_left map fst]. rewrite IH. cbn [fst snd].
  f_equal. apply dict_set_keys_eq.
Qed.
End dict_key_order.

Section batch_layout.
Context {X Y : Type} `{EqDecision X}.
Implicit Types (x : X) (name : string) (algorithms : list (algorithm X Y)).

(** The rows after the closing loop. *)
Lemma assemble_keys (res : list (string * X * Y)) :
  map fst (assemble res) = first_seen (map (fun e => e.1.2) res).
Proof.
  unfold assemble. rewrite <- fold_note_nil.
  change (@nil X) with (map fst (@nil (X * list (string * Y)))) at 2.
  generalize (@nil (X * list (string * Y))) as ret.
  induction res as [|[[f0 x0] r0] res IH]; intros ret; [reflexivity|].
  cbn [fold_left map]. rewrite IH. cbn [fst snd].
  f_equal. apply dict_set_keys_eq.
Qed.

(** The columns of one row after the closing loop. *)
Lemma assemble_inner_keys (res : list (string * X * Y))
    (ret : list (X * list (string * Y))) x inner :
  dict_get
    (fold_left
       (fun ret '(f, x, r) =>
          let inner := default [] (dict_get ret x) in
          dict_set ret x (dict_set inner f r)) res ret) x = Some inner ->
  map fst inner
  = fold_left (fun acc k => if decide (k ∈ acc) then acc else acc ++ [k])
      (map (fun e => e.1.1) (filter (fun e => e.1.2 = x) res))
      (map fst (default [] (dict_get ret x))).
Proof.
  revert ret. induction res as [|[[f0 x0] r0] res IH]; intros ret.
  - cbn. intros ->. reflexivity.
  - cbn [fold_left]. intros Hget. rewrite (IH _ Hget). cbn zeta.
    rewrite dict_get_set_eq, filter_cons. cbn [fst snd].
    destruct (decide (x = x0)) as [->|Hx].
    + destruct (decide (x0 = x0)); [|congruence]. cbn [default map fold_left fst].
      f_equal. apply dict_set_keys_eq.
    + destruct (decide (x0 = x)); [congruence|]. reflexivity.
Qed.

Lemma names_of_row (res : list (string * X * Y)) x :
  map (fun e => e.1.1) (filter (fun e => e.1.2 = x) res)
  = map fst (filter (fun k => k.2 = x) (map fst res)).
Proof.
  induction res as [|[[f0 x0] r0] res IH]; [reflexivity|].
  cbn [map fst]. rewrite !filter_cons. cbn [fst snd].
  destruct (decide (x0 = x)); cbn [map fst]; rewrite IH; reflexivity.
Qed.

(** The keys filed for the tasks, in order. *)
Lemma task_keys (params : list X) algorithms log_level :
  map fst (map filed (tasks_of params algorithms log_level))
  = flat_map (fun x => map (fun f => (f_name f, x)) algorithms) params.
Proof.
  rewrite filed_tasks. induction params as [|x params IH]; [reflexivity|].
  cbn [flat_map]. rewrite List.map_app, IH, List.map_map. reflexivity.
Qed.

Lemma rows_of_task_keys (params : list X) algorithms :
  algorithms <> [] ->
  first_seen
    (map snd (flat_map (fun x => map (fun f => (f_name f, x)) algorithms) params))
  = first_seen params.
Proof.
  intros Hne. induction params as [|x params IH]; [reflexivity|].
  cbn [flat_map]. rewrite List.map_app, first_seen_app, IH, List.map_map. cbn [snd first_seen].
  destruct algorithms as [|f algorithms]; [congruence|].
  assert (Hblock : forall l : list (algorithm X Y),
             first_seen (map (fun _ => x) (f :: l)) = [x]).
  { induction l as [|g l IHl]; [reflexivity|].
    change (map (fun _ => x) (f :: g :: l)) with (x :: map (fun _ : algorithm X Y => x) (f :: l)).
    cbn [first_seen]. rewrite IHl. rewrite filter_cons_False by tauto. reflexivity. }
  rewrite Hblock. cbn [app]. f_equal. apply list_filter_iff. intros y.
  split.
  - intros Hy ->. apply Hy. left.
  - intros Hy [z [-> _]]%list_elem_of_fmap. congruence.
Qed.

Lemma columns_of_task_keys (params : list X) algorithms x :
  first_seen
    (map fst (filter (fun k => k.2 = x)
                (flat_map (fun x => map (fun f => (f_name f, x)) algorithms) params)))
  = if decide (x ∈ params) then first_seen (map f_name algorithms) else [].
Proof.
  induction params as [|x0 params IH]; cbn [flat_map].
  - destruct (decide (x ∈ [])) as [Hin|_]; [inversion Hin|reflexivity].
  - rewrite filter_app, List.map_app, first_seen_app, IH.
    destruct (decide (x0 = x)) as [->|Hx].
    + destruct (decide (x ∈ x :: params)); [|set_solver].
      rewrite (filter_all (fun k => k.2 = x)), List.map_map
        by (intros k [f [-> _]]%list_elem_of_fmap; reflexivity).
      cbn [fst]. change (map (fun f => f_name f) algorithms) with (map f_name algorithms).
      destruct (decide (x ∈ params)).
      * rewrite filter_none; [apply app_nil_r|].
        intros y Hy Hn. rewrite elem_of_first_seen in Hy. contradiction.
      * apply app_nil_r.
    + rewrite (filter_none (fun k => k.2 = x))
        by (intros k [f [-> _]]%list_elem_of_fmap; exact Hx).
      cbn [map first_seen app].
      destruct (decide (x ∈ params)), (decide (x ∈ x0 :: params)); try set_solver.
      apply filter_all. intros y _ Hy. inversion Hy.
Qed.

(** X16: with [jobs >= 1] the rows of the table are the distinct
    parameters of [params] in the order of their first occurrence (no row at
    all when [algorithm] is empty), and the columns of every row are the
    distinct identities of [algorithm] in the order of their first
    occurrence. *)
Theorem batch_table_layout (params : list X) algorithms (jobs log_level : Z) :
  1 <= jobs ->
  exists table, batch_estimate params algorithms jobs log_level = inr table /\
    map fst table = (if algorithms is [] then [] else first_seen params) /\
    forall x inner, dict_get table x = Some inner ->
      map fst inner = first_seen (map f_name algorithms).
Proof.
  intros Hj. rewrite batch_estimate_table by exact Hj.
  eexists. split; [reflexivity|].
  set (pairs := map filed (tasks_of params algorithms log_level)).
  assert (Hres : map fst (dict_of_list pairs)
                 = first_seen (flat_map (fun x => map (fun f => (f_name f, x)) algorithms)
                                 params)).
  { rewrite dict_of_list_keys. unfold pairs. rewrite task_keys. reflexivity. }
  assert (Hrows : map fst (assemble (dict_of_list pairs))
                  = if algorithms is [] then [] else first_seen params).
  { rewrite assemble_keys.
    replace (map (fun e => e.1.2) (dict_of_list pairs))
      with (map snd (map fst (dict_of_list pairs))) by (rewrite List.map_map; reflexivity).
    rewrite Hres, first_seen_map.
    destruct algorithms as [|f algorithms].
    - clear. induction params as [|x params IH]; [reflexivity|exact IH].
    - apply rows_of_task_keys. discriminate. }
  split; [exact Hrows|].
  intros x inner Hget.
  assert (Hx : x ∈ params).
  { assert (Hin : x ∈ map fst (assemble (dict_of_list pairs))).
    { destruct (decide (x ∈ map fst (assemble (dict_of_list pairs)))) as [|Hn]; [assumption|].
      apply dict_get_None in Hn. congruence. }
    rewrite Hrows in Hin. destruct algorithms; [inversion Hin|].
    rewrite elem_of_first_seen in Hin. exact Hin. }
  unfold assemble in Hget. rewrite (assemble_inner_keys _ _ _ _ Hget).
  change (map fst (default [] (dict_get (@nil (X * list (string * Y))) x)))
    with (@nil string).
  rewrite fold_note_nil, names_of_row, Hres.
  rewrite first_seen_filter, first_seen_map, columns_of_task_keys.
  destruct (decide (x ∈ params)); [reflexivity|contradiction].
Qed.
End batch_layout.

Lemma batch_table_layout_witness :
  1 <= 4 /\
  exists table,
    batch_estimate [2; 1; 2]
      [mkAlgorithm "f" (fun x => x + 1); mkAlgorithm "g" (fun x => x * 2);
       mkAlgorithm "f" (fun x => x + 7)] 4 0 = inr table /\
    map fst table = [2; 1].
Proof.
  split; [lia|].
  destruct (batch_table_layout [2; 1; 2]
              [mkAlgorithm "f" (fun x => x + 1); mkAlgorithm "g" (fun x => x * 2);
               mkAlgorithm "f" (fun x => x + 7)] 4 0) as (table & Ht & Hrows & _); [lia|].
  exists table. split; [exact Ht|]. rewrite Hrows. reflexivity.
Defined.
